(** * Contributivity measurement of a multi-partner learning scenario

    Shallow embedding of [simulation_run.py] (functions [main] and
    [run_scenario]) together with models of the estimators it drives
    ([compute_SV], [compute_independent_scores], [truncated_MC]) and of the
    [Contributivity] record.

    Conventions.
    - Python floats are modelled by rationals [Q]; equalities between scores
      are stated with [==] (equality of rationals), which is the exact
      counterpart of "equal within floating-point tolerance".  The float
      operation of the script itself, [end - start], rounds its result to
      a double ([Num.float_sub]).
    - A coalition is a finite set of node indices, [gset nat].
    - Python exceptions are values of type [exn]; a computation that may raise
      returns [exn + A]. *)

From Stdlib Require Import QArith Qround Qabs ZArith Lia Lqa Ascii.
From stdpp Require Import base list gmap sets strings pretty.

(** ** Exceptions *)

(** The error taxonomy of the contributivity core, plus the Python
    run-time error the orchestration code can trigger by itself (a local
    variable read before assignment) and a catch-all for the rest. *)
Inductive exn : Type :=
  | TrainingFailure (coalition : list nat)
  | DimensionMismatch
  | InfeasibleExactComputation
  | UnboundLocalError (name : string)
  | OtherError (msg : string).

(** ** Sums of rationals *)

Module Num.
Local Open Scope Q_scope.

(** Python's [sum(xs)] / numpy's [np.sum(xs)] on a vector of scores. *)
Definition sumQ (l : list Q) : Q := foldr Qplus 0 l.

(** [sum(f(x) for x in l)]. *)
Definition sum_over {A} (f : A -> Q) (l : list A) : Q := sumQ (map f l).

(** [np.round(x)] on a float: the nearest integer, a tie going to the even
    neighbour (numpy rounds half to even). *)
Definition np_round (x : Q) : Z :=
  let f := Qfloor x in
  match Qcompare (x - inject_Z f) (1 # 2) with
  | Lt => f
  | Gt => (f + 1)%Z
  | Eq => if Z.even f then f else (f + 1)%Z
  end.

(** [2 ** q] for an integer exponent [q]. *)
Definition pow2 (q : Z) : Q :=
  match q with
  | Z0 => 1
  | Zpos p => inject_Z (2 ^ Zpos p)
  | Zneg p => 1 # (2 ^ p)
  end.

(** The double nearest to the real number [x] (IEEE 754 binary64, round to
    nearest, ties to even): 53 significant bits, subnormals below
    [2 ** -1022].  Overflow to infinity is left out; clock readings, in
    seconds, are far from it.  [e0] is within one of the binary exponent
    [E] of [|x|], the last bit of the result weighs [2 ** q]. *)
Definition round_double (x : Q) : Q :=
  if Qeq_bool x 0 then 0
  else
    let a := Qabs x in
    let e0 := (Z.log2 (Qnum a) - Z.log2 (Zpos (Qden a)))%Z in
    let E := if Qle_bool (pow2 e0) a then e0 else (e0 - 1)%Z in
    let q := Z.max (E - 52) (-1074) in
    let m := np_round (a / pow2 q) in
    (if Qle_bool 0 x then 1 else - (1)) * (inject_Z m * pow2 q).

(** Python's [a - b] on two floats: the exact difference, rounded to a
    double. *)
Definition float_sub (a b : Q) : Q := round_double (a - b).

End Num.

(** ** Fallible computations *)

Module Err.

(** Sequencing of a computation that may raise. *)
Definition bindE {A B} (r : exn + A) (k : A -> exn + B) : exn + B :=
  match r with
  | inl e => inl e
  | inr a => k a
  end.

(** [[f(x) for x in l]] where [f] may raise: the first exception, in list
    order, aborts the comprehension. *)
Fixpoint mapE {A B} (f : A -> exn + B) (l : list A) : exn + list B :=
  match l with
  | [] => inr []
  | x :: l' =>
      bindE (f x) (fun y => bindE (mapE f l') (fun ys => inr (y :: ys)))
  end.

End Err.

(** ** The coalition-value oracle *)

Module Oracle.

(** A coalition is a set of node indices; order is irrelevant. *)
Abbreviation coalition := (gset nat).

(** Modelled from the spec: the training oracle [evaluate(coalition, budget)]
    (module [fl_training], absent).  [train] stands for one external
    train-and-score cycle at a fixed budget; it may raise [TrainingFailure].
    The empty coalition short-circuits to the fixed [baseline] without
    invoking training. *)
Definition evaluate (baseline : Q) (train : coalition -> exn + Q)
    (S : coalition) : exn + Q :=
  if decide (S = ∅) then inr baseline else train S.

(** The coalition of all [n] nodes. *)
Definition full_coalition (n : nat) : coalition := list_to_set (seq 0 n).

End Oracle.

(** ** ExactShapleyEstimator *)

Module ExactShapley.
Import Num Err Oracle.
Local Open Scope Q_scope.

(** Modelled from the spec: [contributivity_measures.compute_SV] is absent
    from the sources.  The model follows section 4.3: the characteristic
    function is evaluated once per non-empty coalition (index-based subset
    enumeration by bitmask, memoised in a table), then every node receives
    the average over all orderings of its marginal contribution. *)

(** Coalition encoded by the bitmask [mask] over nodes [0..n-1]. *)
Definition coalition_of_mask (n mask : nat) : coalition :=
  list_to_set (filter (fun i => Nat.testbit mask i = true) (seq 0 n)).

(** All non-empty coalitions of [n] nodes: masks [1 .. 2^n - 1]. *)
Definition coalitions (n : nat) : list coalition :=
  map (coalition_of_mask n) (seq 1 (2 ^ n - 1)).

(** One oracle call per coalition; the first [TrainingFailure] aborts. *)
Fixpoint evaluate_all (train : coalition -> exn + Q) (cs : list coalition)
    : exn + gmap coalition Q :=
  match cs with
  | [] => inr ∅
  | c :: cs' =>
      bindE (train c) (fun q =>
      bindE (evaluate_all train cs') (fun tbl => inr (<[c := q]> tbl)))
  end.

(** The memoised characteristic function: the empty coalition has the
    fixed baseline value, every other coalition its tabulated score. *)
Definition value (baseline : Q) (tbl : gmap coalition Q) (S : coalition) : Q :=
  if decide (S = ∅) then baseline else default 0 (tbl !! S).

(** Marginal contribution of node [i] along the ordering [pi], the running
    coalition being [S]:
    [value(coalition of pi up to and including i) - value(coalition before i)]. *)
Fixpoint marginal (v : coalition -> Q) (S : coalition) (pi : list nat)
    (i : nat) : Q :=
  match pi with
  | [] => 0
  | j :: rest =>
      if decide (j = i) then v ({[j]} ∪ S) - v S
      else marginal v ({[j]} ∪ S) rest i
  end.

(** [phi_i = (1/n!) * sum over permutations pi of marginal(pi, i)]. *)
Definition shapley_value (v : coalition -> Q) (n i : nat) : Q :=
  sum_over (fun pi => marginal v ∅ pi i) (permutations (seq 0 n))
  / inject_Z (Z.of_nat (fact n)).

(** The estimator: refuses above the node-count [threshold], otherwise
    returns the score vector and an all-zero variance vector. *)
Definition compute_SV (threshold : nat) (baseline : Q)
    (train : coalition -> exn + Q) (n : nat) : exn + (list Q * list Q) :=
  if decide (threshold < n)%nat then inl InfeasibleExactComputation
  else
    bindE (evaluate_all train (coalitions n)) (fun tbl =>
    inr (map (shapley_value (value baseline tbl) n) (seq 0 n), repeat 0 n)).

End ExactShapley.

(** ** IndependentScoreEstimator *)

Module IndependentScores.
Import Num Err Oracle.
Local Open Scope Q_scope.

(** Modelled from the spec: [contributivity_measures.compute_independent_scores]
    is absent from the sources.  Section 4.2: one oracle call per singleton
    coalition gives the raw vector; the additive vector rescales every raw
    score by the common factor [federated_test_score / sum(raw)]. *)

Definition additive_scores (raw : list Q) (federated_test_score : Q) : list Q :=
  map (fun r => r * (federated_test_score / sumQ raw)) raw.

Definition compute_independent_scores (train : coalition -> exn + Q)
    (n : nat) (federated_test_score : Q) : exn + (list Q * list Q) :=
  bindE (mapE (fun i => train {[i]}) (seq 0 n)) (fun raw =>
  inr (raw, additive_scores raw federated_test_score)).

End IndependentScores.

(** ** TruncatedMonteCarloShapley *)

Module TMCS.
Import Num Err Oracle.
Local Open Scope Q_scope.

(** Modelled from the spec: [contributivity_measures.truncated_MC] is absent
    from the sources.  The model follows the state machine of section 4.4.
    The oracle is stochastic: [oracle k S] is the score returned by the
    [k]-th oracle call of the run when asked for coalition [S].  The random
    source is [draw t], the permutation drawn in sampling round [t]. *)

Record Config := {
  sv_accuracy : Q;       (* target relative precision *)
  alpha : Q;             (* truncation tolerance *)
  contrib_accuracy : Q;  (* confidence-interval target *)
  max_iter : nat         (* hard cap on the number of permutations *)
}.

Record State := {
  iter : nat;                (* permutations completed *)
  oracle_calls : nat;        (* oracle invocations so far *)
  samples : list (list Q)    (* per node, its marginal-contribution samples *)
}.

Record Results := {
  sv : list Q;
  std_sv : list Q;
  iterations : nat;
  fully_converged : bool
}.

(** Running statistics of one node's samples. *)
Definition mean (xs : list Q) : Q :=
  sumQ xs / inject_Z (Z.of_nat (length xs)).

Definition sample_variance (xs : list Q) : Q :=
  sum_over (fun x => (x - mean xs) * (x - mean xs)) xs
  / inject_Z (Z.of_nat (length xs) - 1).

(** Variance of the mean: the square of the standard error. *)
Definition variance_of_mean (xs : list Q) : Q :=
  sample_variance xs / inject_Z (Z.of_nat (length xs)).

Section Estimator.
Variable cfg : Config.
Variable n : nat.
Variable baseline : Q.
Variable full_coalition_value : Q.
Variable oracle : nat -> coalition -> exn + Q.
Variable draw : nat -> list nat.
(** Float primitives left abstract: the normal quantile of the confidence
    level and the square root. *)
Variable quantile : Q -> Q.
Variable sqrtQ : Q -> Q.

(** Steps 2-4: walk a permutation from running coalition [C] with value
    [v_prev], after [k] oracle calls.  Yields the (node, marginal) pairs in
    walk order and the new call count.  Once the truncation rule fires the
    remaining nodes receive 0 and the oracle is no longer called. *)
Fixpoint walk (k : nat) (C : coalition) (v_prev : Q) (pi : list nat)
    : exn + (list (nat * Q) * nat) :=
  match pi with
  | [] => inr ([], k)
  | j :: rest =>
      if Qlt_le_dec (Qabs (full_coalition_value - v_prev))
                    (alpha cfg * full_coalition_value)
      then inr (map (fun i => (i, 0)) pi, k)
      else
        bindE (oracle k ({[j]} ∪ C)) (fun v_curr =>
        bindE (walk (S k) ({[j]} ∪ C) v_curr rest) (fun r =>
        inr ((j, v_curr - v_prev) :: fst r, snd r)))
  end.

(** Record one marginal contribution into its node's sample list. *)
Definition record_sample (smp : list (list Q)) (jm : nat * Q) : list (list Q) :=
  alter (fun xs => xs ++ [snd jm]) (fst jm) smp.

(** Steps 1-4: one sampling round. *)
Definition round (st : State) : exn + State :=
  bindE (walk (oracle_calls st) ∅ baseline (draw (iter st))) (fun r =>
  inr {| iter := S (iter st);
         oracle_calls := snd r;
         samples := foldl record_sample (samples st) (fst r) |}).

(** The state after [k] further rounds, if no oracle call fails. *)
Fixpoint run_rounds (k : nat) (st : State) : exn + State :=
  match k with
  | O => inr st
  | S k' => bindE (round st) (run_rounds k')
  end.

(** Stopping criterion for one node: the half-width of the normal
    confidence interval, [q * stderr], is below [sv_accuracy * |mean|];
    compared in squared form. *)
Definition node_converged (xs : list Q) : bool :=
  let q := quantile (1 - contrib_accuracy cfg) in
  if Qlt_le_dec (q * q * variance_of_mean xs)
                (sv_accuracy cfg * sv_accuracy cfg * (mean xs * mean xs))
  then true else false.

Definition converged (st : State) : bool := forallb node_converged (samples st).

Definition results (st : State) (flag : bool) : Results :=
  {| sv := map mean (samples st);
     std_sv := map (fun xs => sqrtQ (variance_of_mean xs)) (samples st);
     iterations := iter st;
     fully_converged := flag |}.

(** Step 5: the sampling loop.  At every permutation boundary the hard cap
    is checked first; after a completed permutation the stopping criterion
    is evaluated.  [fuel] bounds the recursion; [None] means it ran out. *)
Fixpoint sampling_loop (fuel : nat) (st : State) : option (exn + Results) :=
  match fuel with
  | O => None
  | S fuel' =>
      if decide (max_iter cfg <= iter st)%nat then Some (inr (results st false))
      else
        match round st with
        | inl e => Some (inl e)
        | inr st' =>
            if converged st' then Some (inr (results st' true))
            else sampling_loop fuel' st'
        end
  end.

Definition initial_state : State :=
  {| iter := 0; oracle_calls := 0; samples := replicate n [] |}.

(** The estimator.  A single node needs no sampling: its value is the
    full-coalition value minus the empty-coalition baseline. *)
Definition truncated_MC (fuel : nat) : option (exn + Results) :=
  if decide (n = 1%nat) then
    Some (inr {| sv := [full_coalition_value - baseline]; std_sv := [0];
                 iterations := 0; fully_converged := true |})
  else sampling_loop fuel initial_state.

End Estimator.
End TMCS.

(** ** ContributivityRecord *)

Module ContributivityRecord.
Import Err.

(** The four values passed to [contributivity.Contributivity(...)] at its
    call site in [run_scenario]: method name, score vector, variance vector
    and elapsed time. *)
Record Contributivity := {
  name : string;
  contributivity_scores : list Q;
  scores_var : list Q;
  computation_time : Q
}.

(** Modelled from the spec: the constructor of class [Contributivity]
    (module [contributivity], absent).  Section 4.5: construction validates
    the two vector lengths against the node count and fails with
    [DimensionMismatch] otherwise. *)
Definition new_Contributivity (node_count : nat) (nm : string)
    (scores var : list Q) (time : Q) : exn + Contributivity :=
  if decide (length scores = node_count ∧ length var = node_count)
  then inr {| name := nm; contributivity_scores := scores;
              scores_var := var; computation_time := time |}
  else inl DimensionMismatch.

End ContributivityRecord.

(** ** Tabular results and the CSV file *)

Module Csv.

(** A pandas DataFrame reduced to what [main] uses: named columns and rows
    of rendered cells. *)
Record DataFrame := {
  columns : list string;
  rows : list (list string)
}.

(** Position of a column name, if present. *)
Fixpoint column_index (c : string) (cols : list string) : option nat :=
  match cols with
  | [] => None
  | c' :: cols' =>
      if decide (c' = c) then Some 0 else S <$> column_index c cols'
  end.

(** [df[c] = v] with a scalar [v]: overwrite the column when it exists,
    append it otherwise. *)
Definition set_column (c v : string) (df : DataFrame) : DataFrame :=
  match column_index c (columns df) with
  | Some k => {| columns := columns df; rows := map (fun r => <[k := v]> r) (rows df) |}
  | None => {| columns := columns df ++ [c]; rows := map (fun r => r ++ [v]) (rows df) |}
  end.

(** The dialect [to_csv] hands to the csv writer: comma, double quote,
    and the line terminator of the platform ([os.linesep], a newline). *)
Definition delimiter : ascii := ","%char.
Definition quotechar : ascii := "034"%char.
Definition lineterminator : string := String "010"%char EmptyString.

Fixpoint contains (c : ascii) (s : string) : bool :=
  match s with
  | EmptyString => false
  | String c' s' => if Ascii.eqb c c' then true else contains c s'
  end.

(** Minimal quoting: a field is quoted when it holds the delimiter, the
    quote character or a character of the line terminator. *)
Fixpoint needs_quotes (cell : string) : bool :=
  match cell with
  | EmptyString => false
  | String c cell' =>
      if Ascii.eqb c delimiter then true
      else if Ascii.eqb c quotechar then true
      else if contains c lineterminator then true
      else needs_quotes cell'
  end.

(** Inside a quoted field every quote character is doubled. *)
Fixpoint double_quotes (cell : string) : string :=
  match cell with
  | EmptyString => EmptyString
  | String c cell' =>
      if Ascii.eqb c quotechar
      then String c (String c (double_quotes cell'))
      else String c (double_quotes cell')
  end.

Definition csv_field (cell : string) : string :=
  if needs_quotes cell
  then String quotechar (double_quotes cell +:+ String quotechar EmptyString)
  else cell.

(** One record: the fields joined by the delimiter.  A record made of a
    single empty field is written as a pair of quotes. *)
Definition csv_record (cells : list string) : string :=
  match cells with
  | [EmptyString] => String quotechar (String quotechar EmptyString)
  | _ => String.concat (String delimiter EmptyString) (map csv_field cells)
  end.

(** The records written by [df.to_csv(f, header=h, index=False)], cells
    being the values as pandas renders them. *)
Definition to_csv (header : bool) (df : DataFrame) : list string :=
  (if header then [csv_record (columns df)] else [])
  ++ map csv_record (rows df).

(** A text file as the list of the records written to it, each followed
    by the line terminator.  [tell] is the position reported by [f.tell()]
    on a file opened for appending, that is the size of the file. *)
Definition tell (file : list string) : nat :=
  foldr (fun line acc => String.length line + 1 + acc) 0 file.

End Csv.

(** ** simulation_run.py *)

Module Sim.
Import Num Err ContributivityRecord Csv.
Local Open Scope Q_scope.

(** Calls to the three estimators of [contributivity_measures], as logged
    in the order [run_scenario] makes them. *)
Inductive call : Type :=
  | Call_compute_SV
  | Call_compute_independent_scores
  | Call_truncated_MC (sv_accuracy alpha contrib_accuracy : Q).

(** The part of the outside world the script acts on: the clock read by
    [timer()], the log of estimator calls, the lines of [results.csv] and,
    for every [to_csv] call, the value of its [header] argument. *)
Record world := {
  ticks : nat;
  calls : list call;
  results_csv : list string;
  csv_headers : list bool
}.

(** The world when [main] starts, [results.csv] holding the lines [file]
    (none when the experiment folder is fresh). *)
Definition initial_world (file : list string) : world :=
  {| ticks := 0; calls := []; results_csv := file; csv_headers := [] |}.

(** State-and-exception monad of the script. *)
Definition M (A : Type) : Type := world -> (exn + A) * world.

Definition ret {A} (a : A) : M A := fun w => (inr a, w).

Definition raise {A} (e : exn) : M A := fun w => (inl e, w).

Definition bind {A B} (m : M A) (k : A -> M B) : M B :=
  fun w =>
    match m w with
    | (inl e, w') => (inl e, w')
    | (inr a, w') => k a w'
    end.

Notation "'let*' x ':=' m 'in' k" := (bind m (fun x => k))
  (at level 10, x pattern, m at level 100, k at level 200).

(** Result of an external call: returned or raised. *)
Definition lift {A} (r : exn + A) : M A := fun w => (r, w).

(** [for x in l: body] with loop-carried state [st]. *)
Fixpoint for_each {A St} (l : list A) (body : A -> St -> M St) (st : St) : M St :=
  match l with
  | [] => ret st
  | x :: l' => let* st' := body x st in for_each l' body st'
  end.

Definition log_call (c : call) : M unit :=
  fun w => (inr tt, {| ticks := ticks w; calls := calls w ++ [c];
                       results_csv := results_csv w; csv_headers := csv_headers w |}).

Definition call_count : M nat := fun w => (inr (length (calls w)), w).

(** [score_dict]: keys in insertion order with their (scores, variances). *)
Abbreviation score_dict := (list (string * (list Q * list Q))).

(** The names of the records built for a method: the keys of the
    [score_dict] its branch assigns. *)
Definition record_names (method : string) : list string :=
  if decide (method = "Shapley values") then ["Shapley values"]
  else if decide (method = "Independant scores") then
    ["Independant scores raw"; "Independant scores additive"]
  else if decide (method = "TMCS values") then ["TMCS values"]
  else [].

(** The method names that the [if/elif] chain of [run_scenario] knows. *)
Definition recognized (method : string) : Prop :=
  method = "Shapley values" \/ method = "Independant scores" \/
  method = "TMCS values".

(** A logged call to [truncated_MC] carries the documented defaults. *)
Definition default_arguments (c : call) : Prop :=
  match c with
  | Call_truncated_MC sv_accuracy alpha contrib_accuracy =>
      sv_accuracy = 1 # 100 /\ alpha = 9 # 10 /\ contrib_accuracy = 5 # 100
  | _ => True
  end.

(** Number of [to_csv] calls that wrote the header row. *)
Definition headers_written (w : world) : nat :=
  length (filter (fun h => h = true) (csv_headers w)).

(** *** Relations between the worlds before and after a computation *)

(** [m] takes every world to one related to it by [R], whether it returns
    or raises. *)
Definition respects {A} (R : relation world) (m : M A) : Prop :=
  forall w, R w (snd (m w)).

(** [results.csv] and the log of header flags are untouched. *)
Definition csv_untouched (w w' : world) : Prop :=
  results_csv w' = results_csv w /\ csv_headers w' = csv_headers w.

(** The clock has not been read. *)
Definition clock_untouched (w w' : world) : Prop := ticks w' = ticks w.

(** Every call logged in between satisfies [P]. *)
Definition calls_extended (P : call -> Prop) (w w' : world) : Prop :=
  exists new, calls w' = calls w ++ new /\ Forall P new.

(** Headers written so far, plus the one still due while the file is
    empty: a quantity no step of the script changes. *)
Definition header_budget (w : world) : nat :=
  (headers_written w + if decide (results_csv w = []) then 1 else 0)%nat.

Definition budget_kept (w w' : world) : Prop :=
  header_budget w' = header_budget w.

(** The record built from one entry of [score_dict] and the elapsed time:
    the arguments of the call [Contributivity(score_method, score[0],
    score[1], elapsed)]. *)
Definition record_of (elapsed : Q) (entry : string * (list Q * list Q))
    : Contributivity :=
  {| name := fst entry; contributivity_scores := fst (snd entry);
     scores_var := snd (snd entry); computation_time := elapsed |}.

Section Script.
Context {Node Data Params : Type}.

(** The attributes of a [scenario.Scenario] object that the script reads
    or writes. *)
Record Scenario := {
  node_list : list Node;
  epoch_count : Z;
  x_val : Data;
  y_val : Data;
  x_test : Data;
  y_test : Data;
  aggregation_weighting : string;
  single_partner_test_mode : string;
  federated_test_score : Q;
  methods : list string;
  contributivity_list : list Contributivity
}.

Definition set_federated_test_score (s : Scenario) (score : Q) : Scenario :=
  {| node_list := node_list s; epoch_count := epoch_count s;
     x_val := x_val s; y_val := y_val s; x_test := x_test s; y_test := y_test s;
     aggregation_weighting := aggregation_weighting s;
     single_partner_test_mode := single_partner_test_mode s;
     federated_test_score := score;
     methods := methods s;
     contributivity_list := contributivity_list s |}.

(** Modelled from the spec: [Scenario.append_contributivity] (module
    [scenario], absent) appends the record to the scenario's result
    collection. *)
Definition append_contributivity (s : Scenario) (c : Contributivity) : Scenario :=
  {| node_list := node_list s; epoch_count := epoch_count s;
     x_val := x_val s; y_val := y_val s; x_test := x_test s; y_test := y_test s;
     aggregation_weighting := aggregation_weighting s;
     single_partner_test_mode := single_partner_test_mode s;
     federated_test_score := federated_test_score s;
     methods := methods s;
     contributivity_list := contributivity_list s ++ [c] |}.

(** The result dictionary of [truncated_MC], read at keys ["sv"] and
    ["std_sv"]. *)
Record tmcs_results := {
  tmcs_sv : list Q;
  tmcs_std_sv : list Q
}.

(** The functions of other modules that the script calls.  Each may raise.
    The estimators are stochastic (they train models), so they also receive
    the number of estimator calls made before them. *)
Class Externals := {
  (* scenario.Scenario *)
  Scenario_init : Params -> exn + Scenario;
  amounts_per_node : Params -> exn + unit;
  to_dataframe : Scenario -> exn + DataFrame;
  split_data : Scenario -> exn + Scenario;
  plot_data_distribution : Scenario -> exn + unit;
  to_file : Scenario -> exn + unit;
  (* fl_training *)
  preprocess_scenarios_data : Scenario -> exn + Scenario;
  compute_test_score_with_scenario : Scenario -> bool -> exn + Q;
  (* contributivity_measures *)
  compute_SV :
    nat -> list Node -> Z -> Data -> Data -> Data -> Data -> string ->
    exn + (list Q * list Q);
  compute_independent_scores :
    nat -> list Node -> Z -> Q -> string -> Data -> Data ->
    exn + (list Q * list Q);
  truncated_MC : nat -> Scenario -> Q -> Q -> Q -> exn + tmcs_results;
  (* contributivity.Contributivity: the constructor may raise; a record it
     returns stores the four arguments (section 4.5 of the spec: no
     behaviour beyond storage and display) *)
  Contributivity_init : string -> list Q -> list Q -> Q -> exn + Contributivity;
  Contributivity_init_fields nm sc var tm c :
    Contributivity_init nm sc var tm = inr c ->
    c = {| name := nm; contributivity_scores := sc;
           scores_var := var; computation_time := tm |};
  (* timeit.default_timer: the reading returned by the k-th call *)
  timer_at : nat -> Q;
  (* [run_scenario] returns 0 and rebinds its local variable at line 95 to
     what [preprocess_scenarios_data] returns, which may or may not be the
     object it was given.  [object_after_run s s'] is the state in which a
     run leaves the object it was given in state [s], the local variable
     ending in state [s']: [s'] itself when both are one object. *)
  object_after_run : Scenario -> Scenario -> Scenario
}.

Context {ext : Externals}.

(** [timer()]: reads the clock. *)
Definition timer : M Q :=
  fun w => (inr (timer_at (ticks w)),
            {| ticks := S (ticks w); calls := calls w;
               results_csv := results_csv w; csv_headers := csv_headers w |}).

(** Lines 107-138 of run_scenario: the [if/elif] chain on the method name.
    It assigns [score_dict]; for a name that matches no branch the variable
    keeps what it held before. *)
Definition compute_scores (method : string) (s : Scenario)
    (sd : option score_dict) : M (option score_dict) :=
  if decide (method = "Shapley values") then
    let* k := call_count in
    let* _ := log_call Call_compute_SV in
    let* r := lift (compute_SV k (node_list s) (epoch_count s)
                      (x_val s) (y_val s) (x_test s) (y_test s)
                      (aggregation_weighting s)) in
    ret (Some [("Shapley values", (fst r, snd r))])
  else if decide (method = "Independant scores") then
    let* k := call_count in
    let* _ := log_call Call_compute_independent_scores in
    let* scores := lift (compute_independent_scores k (node_list s)
                           (epoch_count s) (federated_test_score s)
                           (single_partner_test_mode s) (x_test s) (y_test s)) in
    ret (Some [("Independant scores raw",
                 (fst scores, repeat 0 (length (fst scores))));
               ("Independant scores additive",
                 (snd scores, repeat 0 (length (snd scores))))])
  else if decide (method = "TMCS values") then
    let* k := call_count in
    let* _ := log_call (Call_truncated_MC (1 # 100) (9 # 10) (5 # 100)) in
    let* tmcs := lift (truncated_MC k s (1 # 100) (9 # 10) (5 # 100)) in
    ret (Some [("TMCS values", (tmcs_sv tmcs, tmcs_std_sv tmcs))])
  else ret sd.

(** Lines 141-149: one record per entry of [score_dict], each appended to
    the scenario. *)
Definition append_records (elapsed : Q) (sd : score_dict) (s : Scenario)
    : M Scenario :=
  for_each sd
    (fun entry s =>
       let* contrib := lift (Contributivity_init (fst entry) (fst (snd entry))
                               (snd (snd entry)) elapsed) in
       ret (append_contributivity s contrib))
    s.

(** Body of the loop [for method in current_scenario.methods].  The loop
    carries the scenario and the local variable [score_dict], unbound
    ([None]) until a branch assigns it. *)
Definition run_method (method : string) (st : Scenario * option score_dict)
    : M (Scenario * option score_dict) :=
  let* start := timer in
  let* sd := compute_scores method (fst st) (snd st) in
  let* end_ := timer in
  match sd with
  | None => raise (UnboundLocalError "score_dict")
  | Some d =>
      let* s' := append_records (inject_Z (np_round (float_sub end_ start)))
                   d (fst st) in
      ret (s', Some d)
  end.

(** Lines 93-102: split, plot, preprocess, then train on all nodes. *)
Definition prepare (s : Scenario) : M Scenario :=
  let* s1 := lift (split_data s) in
  let* _ := lift (plot_data_distribution s1) in
  let* s2 := lift (preprocess_scenarios_data s1) in
  let* score := lift (compute_test_score_with_scenario s2 true) in
  ret (set_federated_test_score s2 score).

(** [run_scenario]; the model returns the state in which the function
    leaves the object of its local variable [current_scenario] (the Python
    function returns 0). *)
Definition run_scenario (s : Scenario) : M Scenario :=
  let* s1 := prepare s in
  let* st := for_each (methods s1) run_method (s1, None) in
  let* _ := lift (to_file (fst st)) in
  ret (fst st).

(** Lines 82-84: append the dataframe to results.csv, with the header row
    when [f.tell() == 0]. *)
Definition append_results (df : DataFrame) : M unit :=
  fun w =>
    let header := Nat.eqb (tell (results_csv w)) 0 in
    (inr tt, {| ticks := ticks w; calls := calls w;
                results_csv := results_csv w ++ to_csv header df;
                csv_headers := csv_headers w ++ [header] |}).

(** Body of the inner loop of [main] for repeat [i] and scenario
    [scenario_id].  After the run, [main] goes on with the object it
    created, not with the local variable of [run_scenario]. *)
Definition main_iteration (job : nat * (nat * Params)) (_ : unit) : M unit :=
  let i := fst job in
  let scenario_id := fst (snd job) in
  let scenario_params := snd (snd job) in
  let* _ := lift (amounts_per_node scenario_params) in
  let* current_scenario := lift (Scenario_init scenario_params) in
  let* _ := lift (to_dataframe current_scenario) in
  let* local_scenario := run_scenario current_scenario in
  let current_scenario := object_after_run current_scenario local_scenario in
  let* df_results := lift (to_dataframe current_scenario) in
  let df_results := set_column "random_state" (pretty i) df_results in
  let df_results := set_column "scenario_id" (pretty scenario_id) df_results in
  append_results df_results.

(** The iterations of the two nested loops, in execution order:
    [for i in range(n_repeats)] around
    [for scenario_id, scenario_params in enumerate(scenario_params_list)]. *)
Definition main_jobs (n_repeats : nat) (scenario_params_list : list Params)
    : list (nat * (nat * Params)) :=
  i ← seq 0 n_repeats;
  (fun p => (i, p)) <$> imap (fun scenario_id p => (scenario_id, p)) scenario_params_list.

(** [main], from line 61 on, for a loaded configuration. *)
Definition main (n_repeats : nat) (scenario_params_list : list Params) : M Z :=
  let* _ := for_each (main_jobs n_repeats scenario_params_list) main_iteration tt in
  ret 0%Z.

End Script.

Arguments Scenario : clear implicits.
Arguments Externals : clear implicits.

End Sim.

(** ** Deterministic stubs used to exercise the models *)

Module Stub.
Import Oracle.
Local Open Scope Q_scope.

(** Oracle stub [value(S) = 10 * |S|] of the end-to-end scenario. *)
Definition train_linear (S : coalition) : exn + Q :=
  inr (inject_Z (10 * Z.of_nat (size S))).

(** Oracle stub returning the same score [c] for every coalition. *)
Definition train_const (c : Q) (S : coalition) : exn + Q := inr c.

(** Oracle stub that cannot train on any coalition. *)
Definition train_fail (S : coalition) : exn + Q :=
  inl (TrainingFailure (elements S)).

(** A TMCS configuration with the documented defaults and a cap of five
    permutations, and a degenerate run: two nodes, every coalition scores
    [c], the same ordering drawn in every round. *)
Definition tmcs_config : TMCS.Config :=
  {| TMCS.sv_accuracy := 1 # 100; TMCS.alpha := 9 # 10;
     TMCS.contrib_accuracy := 5 # 100; TMCS.max_iter := 5 |}.

Definition tmcs_degenerate (c : Q) (fuel : nat) : option (exn + TMCS.Results) :=
  TMCS.truncated_MC tmcs_config 2 0 c (fun _ => train_const c)
    (fun _ => [0; 1]%nat) (fun _ => 2) (fun x => x) fuel.

(** A closed instance of the externals: three nodes, the estimators of the
    models above driven by the oracle [train], the validating record
    constructor, a clock that advances by 5/2 between readings, and a
    preprocessing that works in place and returns the object it was given.
    The scenario parameters are the list of methods to run. *)
Definition stub_scenario (methods : list string) : Sim.Scenario nat unit :=
  {| Sim.node_list := [0; 1; 2]%nat; Sim.epoch_count := 3;
     Sim.x_val := tt; Sim.y_val := tt; Sim.x_test := tt; Sim.y_test := tt;
     Sim.aggregation_weighting := "uniform";
     Sim.single_partner_test_mode := "global";
     Sim.federated_test_score := 0;
     Sim.methods := methods;
     Sim.contributivity_list := [] |}.

Definition stub_truncated_MC (train : coalition -> exn + Q)
    (s : Sim.Scenario nat unit) (sv_accuracy alpha contrib_accuracy : Q)
    : exn + Sim.tmcs_results :=
  match
    TMCS.truncated_MC
      {| TMCS.sv_accuracy := sv_accuracy; TMCS.alpha := alpha;
         TMCS.contrib_accuracy := contrib_accuracy; TMCS.max_iter := 4 |}
      (length (Sim.node_list s)) 0 (Sim.federated_test_score s)
      (fun _ => train) (fun t => rotate t [0; 1; 2]%nat)
      (fun _ => 2) (fun x => x) 5
  with
  | Some (inr r) =>
      inr {| Sim.tmcs_sv := TMCS.sv r; Sim.tmcs_std_sv := TMCS.std_sv r |}
  | Some (inl e) => inl e
  | None => inl (OtherError "no result")
  end.

Lemma stub_init_fields (nm : string) (sc var : list Q) (tm : Q) c :
  ContributivityRecord.new_Contributivity 3 nm sc var tm = inr c ->
  c = {| ContributivityRecord.name := nm; ContributivityRecord.contributivity_scores := sc;
         ContributivityRecord.scores_var := var; ContributivityRecord.computation_time := tm |}.
Proof.
  unfold ContributivityRecord.new_Contributivity.
  destruct (decide _); [|discriminate]. by intros [= <-].
Defined.

Definition stub_externals_with (train : coalition -> exn + Q)
    (after_run : Sim.Scenario nat unit -> Sim.Scenario nat unit ->
                 Sim.Scenario nat unit)
    : Sim.Externals nat unit (list string) :=
  {| Sim.Scenario_init := fun p => inr (stub_scenario p);
     Sim.amounts_per_node := fun _ => inr tt;
     Sim.to_dataframe := fun s =>
       inr {| Csv.columns := ["contributivity_method"];
              Csv.rows := map (fun c => [ContributivityRecord.name c])
                              (Sim.contributivity_list s) |};
     Sim.split_data := fun s => inr s;
     Sim.plot_data_distribution := fun _ => inr tt;
     Sim.to_file := fun _ => inr tt;
     Sim.preprocess_scenarios_data := fun s => inr s;
     Sim.compute_test_score_with_scenario := fun s _ =>
       train (full_coalition (length (Sim.node_list s)));
     Sim.compute_SV := fun _ nodes _ _ _ _ _ _ =>
       ExactShapley.compute_SV 10 0 train (length nodes);
     Sim.compute_independent_scores := fun _ nodes _ fed _ _ _ =>
       IndependentScores.compute_independent_scores train (length nodes) fed;
     Sim.truncated_MC := fun _ => stub_truncated_MC train;
     Sim.Contributivity_init := ContributivityRecord.new_Contributivity 3;
     Sim.Contributivity_init_fields := stub_init_fields;
     Sim.timer_at := fun k => inject_Z (Z.of_nat k) * (5 # 2);
     Sim.object_after_run := after_run |}.

Definition stub_externals (train : coalition -> exn + Q)
    : Sim.Externals nat unit (list string) :=
  stub_externals_with train (fun _ s' => s').

(** The same, with a preprocessing that returns a copy: the object handed
    to [run_scenario] stays as it was. *)
Definition copying : Sim.Externals nat unit (list string) :=
  stub_externals_with train_linear (fun s _ => s).

(** An oracle that cannot train the coalitions of exactly two nodes.  The
    singleton estimator and the truncated walk never ask for one; the
    exact estimator does. *)
Definition train_no_pair (S : coalition) : exn + Q :=
  if decide (size S = 2%nat) then inl (TrainingFailure (elements S))
  else train_linear S.

(** An experiment of two repeats over two scenarios; the second scenario
    runs all three methods. *)
Definition ok : Sim.Externals nat unit (list string) :=
  stub_externals train_linear.

Definition failing : Sim.Externals nat unit (list string) :=
  stub_externals train_no_pair.

Definition experiment : list (list string) :=
  [["Independant scores"];
   ["Independant scores"; "Shapley values"; "TMCS values"]].

End Stub.

(** ** simulation_run.py: the rest of the script *)

Module Script.
Import Num Err ContributivityRecord Csv Sim.
Local Open Scope Q_scope.

(** The estimator call a method name leads to: one for each of the three
    names of the [if/elif] chain, none for any other name. *)
Definition call_of_method (method : string) : list call :=
  if decide (method = "Shapley values") then [Call_compute_SV]
  else if decide (method = "Independant scores") then
    [Call_compute_independent_scores]
  else if decide (method = "TMCS values") then
    [Call_truncated_MC (1 # 100) (9 # 10) (5 # 100)]
  else [].

(** Every row has one cell per column. *)
Definition well_formed (df : DataFrame) : Prop :=
  Forall (fun r => length r = length (columns df)) (rows df).

(** The file has only grown: its former lines are still its first lines. *)
Definition csv_appended (w w' : world) : Prop :=
  results_csv w `prefix_of` results_csv w'.

(** Once something was appended to results.csv, the file is not empty. *)
Definition appended_nonempty (w : world) : Prop :=
  csv_headers w = [] \/ results_csv w <> [].

Definition nonempty_kept (w w' : world) : Prop :=
  appended_nonempty w -> appended_nonempty w'.

Section Objects.
Context {Node Data Params : Type}.

(** The scenario [s] with its result collection replaced by [l]. *)
Definition set_contributivity_list (s : Scenario Node Data)
    (l : list Contributivity) : Scenario Node Data :=
  {| node_list := node_list s; epoch_count := epoch_count s;
     x_val := x_val s; y_val := y_val s; x_test := x_test s; y_test := y_test s;
     aggregation_weighting := aggregation_weighting s;
     single_partner_test_mode := single_partner_test_mode s;
     federated_test_score := federated_test_score s;
     methods := methods s;
     contributivity_list := l |}.

(** The dictionary returned by [utils.load_cfg] and
    [utils.init_result_folder], seen through the three keys that [main]
    reads.  A key may be missing; a key that is present holds a value of
    the type the script uses it at. *)
Record config := {
  experiment_path : option string;
  scenario_params_list : option (list Params);
  n_repeats : option Z
}.

(** The two functions of module [utils] called by [main]. *)
Class ConfigExternals := {
  load_cfg : string -> exn + config;
  init_result_folder : string -> config -> exn + config
}.

Context {ext : Externals Node Data Params} {cfg_ext : ConfigExternals}.

Definition DEFAULT_CONFIG_FILE : string := "config.yml".

(** Lines 40-45: [args.file] is [None] without [-f]; [if args.file] also
    takes the [else] branch for an empty string. *)
Definition config_filepath (file : option string) : string :=
  match file with
  | Some f => if decide (f = "") then DEFAULT_CONFIG_FILE else f
  | None => DEFAULT_CONFIG_FILE
  end.

(** [d[key]] on a dictionary: [KeyError] when the key is missing. *)
Definition subscript {A} (key : string) (entry : option A) : exn + A :=
  match entry with
  | Some v => inr v
  | None => inl (OtherError ("KeyError: " +:+ key))
  end.

(** [main] from its first line, [file] being the value of the [-f] option.
    [range(n_repeats)] is empty for a negative [n_repeats]. *)
Definition main_script (file : option string) : M Z :=
  let config_filepath := config_filepath file in
  let* config := lift (load_cfg config_filepath) in
  let* config := lift (init_result_folder config_filepath config) in
  let* experiment_path :=
    lift (subscript "experiment_path" (experiment_path config)) in
  let* scenario_params_list :=
    lift (subscript "scenario_params_list" (scenario_params_list config)) in
  let* n_repeats := lift (subscript "n_repeats" (n_repeats config)) in
  main (Z.to_nat n_repeats) scenario_params_list.

End Objects.

Arguments config : clear implicits.
Arguments ConfigExternals : clear implicits.

End Script.

(** ** Stubs for the configuration *)

Module StubConfig.
Import Script.

(** A configuration file system: [config.yml] describes the two-scenario
    experiment with two repeats, [no_repeats.yml] lacks the key
    [n_repeats], [dry_run.yml] asks for no repeat at all, every other path
    cannot be loaded. *)
Definition stub_load_cfg (path : string) : exn + config (list string) :=
  if decide (path = "config.yml") then
    inr {| experiment_path := None;
           scenario_params_list := Some Stub.experiment;
           n_repeats := Some 2%Z |}
  else if decide (path = "no_repeats.yml") then
    inr {| experiment_path := None;
           scenario_params_list := Some Stub.experiment;
           n_repeats := None |}
  else if decide (path = "dry_run.yml") then
    inr {| experiment_path := None;
           scenario_params_list := Some Stub.experiment;
           n_repeats := Some (-1)%Z |}
  else inl (OtherError "FileNotFoundError").

(** [init_result_folder] creates the experiment folder and records it. *)
Definition stub_init_result_folder (path : string)
    (c : config (list string)) : exn + config (list string) :=
  inr {| experiment_path := Some "experiments/run";
         scenario_params_list := scenario_params_list c;
         n_repeats := n_repeats c |}.

Definition stub_config : ConfigExternals (list string) :=
  {| load_cfg := stub_load_cfg;
     init_result_folder := stub_init_result_folder |}.

End StubConfig.

(** ** Runs of the script on the stubs *)

Module StubRuns.
Import Sim Stub.

(** The scenario with all three methods, before and after preparation. *)
Definition scenario3 : Scenario nat unit := stub_scenario (experiment !!! 1%nat).

Definition prepared3 : Scenario nat unit := set_federated_test_score scenario3 30.

(** Its run with the oracle that always trains. *)
Definition run3 : (exn + Scenario nat unit) * world :=
  run_scenario (ext := ok) scenario3 (initial_world []).

Definition final3 : Scenario nat unit :=
  match fst run3 with inr s => s | inl _ => scenario3 end.

(** The loop body for one method on the prepared scenario, no method having
    run before. *)
Definition method_run (method : string)
    : (exn + Scenario nat unit * option score_dict) * world :=
  run_method (ext := ok) method (prepared3, None) (initial_world []).

Definition method_state (method : string) : Scenario nat unit * option score_dict :=
  match fst (method_run method) with
  | inr st => st
  | inl _ => (prepared3, None)
  end.

(** A score dictionary as the branch of "Shapley values" leaves it. *)
Definition shapley_dict : score_dict :=
  [("Shapley values", ([10; 10; 10]%Q, [0; 0; 0]%Q))].

(** The loop body for an unknown method name met after "Shapley values". *)
Definition bogus_run : (exn + Scenario nat unit * option score_dict) * world :=
  run_method (ext := ok) "bogus" (prepared3, Some shapley_dict)
    (initial_world []).

Definition bogus_state : Scenario nat unit * option score_dict :=
  match fst bogus_run with
  | inr st => st
  | inl _ => (prepared3, None)
  end.

(** The whole experiment, on a fresh results.csv. *)
Definition experiment_run : (exn + Z) * world :=
  main (ext := ok) 2 experiment (initial_world []).

(** The first iteration of the experiment. *)
Definition first_iteration : (exn + unit) * world :=
  main_iteration (ext := ok) (0, (0, experiment !!! 0))%nat tt
    (initial_world []).

End StubRuns.

(** * Properties *)

(** ** Sums and rounding *)

Module NumFacts.
Import Num.
Local Open Scope Q_scope.

Lemma sumQ_app (l1 l2 : list Q) : sumQ (l1 ++ l2) == sumQ l1 + sumQ l2.
Proof.
  induction l1 as [|x l1 IH]; simpl.
  - ring.
  - rewrite IH. ring.
Qed.

Lemma sum_over_cons {A} (f : A -> Q) x l :
  sum_over f (x :: l) = f x + sum_over f l.
Proof. reflexivity. Qed.

Lemma sum_over_ext {A} (f g : A -> Q) (l : list A) :
  (forall x, x ∈ l -> f x == g x) -> sum_over f l == sum_over g l.
Proof.
  induction l as [|x l IH]; intros Hfg.
  - reflexivity.
  - rewrite !sum_over_cons. rewrite (Hfg x) by left.
    rewrite IH; [reflexivity|]. intros y Hy. apply Hfg. by right.
Qed.

Lemma sum_over_perm {A} (f : A -> Q) (l1 l2 : list A) :
  l1 ≡ₚ l2 -> sum_over f l1 == sum_over f l2.
Proof.
  induction 1 as [|x l1 l2 _ IH|x y l|l1 l2 l3 _ IH1 _ IH2].
  - reflexivity.
  - rewrite !sum_over_cons, IH. reflexivity.
  - rewrite !sum_over_cons. ring.
  - by rewrite IH1.
Qed.

Lemma sum_over_zero {A} (l : list A) : sum_over (fun _ => 0) l == 0.
Proof.
  induction l as [|x l IH]; [reflexivity|].
  rewrite sum_over_cons, IH. ring.
Qed.

Lemma sum_over_plus {A} (f g : A -> Q) (l : list A) :
  sum_over (fun x => f x + g x) l == sum_over f l + sum_over g l.
Proof.
  induction l as [|x l IH]; [reflexivity|].
  rewrite !sum_over_cons, IH. ring.
Qed.

Lemma sum_over_scale {A} (c : Q) (f : A -> Q) (l : list A) :
  sum_over (fun x => f x * c) l == sum_over f l * c.
Proof.
  induction l as [|x l IH]; simpl.
  - unfold sum_over; simpl. ring.
  - rewrite !sum_over_cons, IH. ring.
Qed.

Lemma sum_over_const {A} (c : Q) (l : list A) :
  sum_over (fun _ => c) l == inject_Z (Z.of_nat (length l)) * c.
Proof.
  induction l as [|x l IH].
  - unfold sum_over; simpl. ring.
  - rewrite sum_over_cons, IH.
    replace (length (x :: l)) with (S (length l)) by reflexivity.
    rewrite Nat2Z.inj_succ. unfold Z.succ. rewrite inject_Z_plus. ring.
Qed.

(** Exchange of two finite sums. *)
Lemma sum_over_swap {A B} (f : A -> B -> Q) (la : list A) (lb : list B) :
  sum_over (fun a => sum_over (fun b => f a b) lb) la
  == sum_over (fun b => sum_over (fun a => f a b) la) lb.
Proof.
  induction la as [|a la IH].
  - unfold sum_over at 1; simpl. symmetry. apply sum_over_zero.
  - rewrite sum_over_cons, IH, <- sum_over_plus.
    apply sum_over_ext. intros b _. by rewrite sum_over_cons.
Qed.

Lemma sum_over_div {A} (c : Q) (f : A -> Q) (l : list A) :
  sum_over (fun x => f x / c) l == sum_over f l / c.
Proof. unfold Qdiv. apply sum_over_scale. Qed.

Lemma sumQ_sum_over (l : list Q) : sumQ l = sum_over (fun x => x) l.
Proof. unfold sum_over. by rewrite map_id. Qed.

(** The fractional part left by [Qfloor] lies in [0, 1). *)
Lemma Qfloor_frac (x : Q) :
  0 <= x - inject_Z (Qfloor x) /\ x - inject_Z (Qfloor x) < 1.
Proof.
  pose proof (Qfloor_le x) as Hle.
  pose proof (Qlt_floor x) as Hlt.
  rewrite inject_Z_plus in Hlt. change (inject_Z 1) with 1 in Hlt.
  split; lra.
Qed.

(** [np_round] returns an integer at distance at most one half. *)
Lemma np_round_nearest (x : Q) : Qabs (x - inject_Z (np_round x)) <= 1 # 2.
Proof.
  destruct (Qfloor_frac x) as [H0 H1].
  unfold np_round.
  destruct (Qcompare (x - inject_Z (Qfloor x)) (1 # 2)) eqn:Hc.
  - apply Qeq_alt in Hc.
    destruct (Z.even (Qfloor x)).
    + apply Qabs_case; intros _; lra.
    + rewrite inject_Z_plus. change (inject_Z 1) with 1.
      apply Qabs_case; intros _; lra.
  - apply Qlt_alt in Hc. apply Qabs_case; intros _; lra.
  - apply Qgt_alt in Hc. rewrite inject_Z_plus. change (inject_Z 1) with 1.
    apply Qabs_case; intros _; lra.
Qed.

(** Ties go to the even neighbour, as with numpy. *)
Example np_round_half_to_even :
  np_round (5 # 2) = 2%Z /\ np_round (7 # 2) = 4%Z /\
  np_round (- (1 # 2)) = 0%Z /\ np_round (13 # 5) = 3%Z.
Proof. by repeat split. Qed.

End NumFacts.

(** ** ExactShapleyEstimator: the efficiency axiom *)

Module ExactShapleyFacts.
Import Num NumFacts Err Oracle ExactShapley.
Local Open Scope Q_scope.

Lemma length_interleave {A} (x : A) (l : list A) :
  length (interleave x l) = S (length l).
Proof.
  induction l as [|y l IH]; simpl; [done|].
  by rewrite length_fmap, IH.
Qed.

Lemma length_bind_const {A B} (f : A -> list B) (l : list A) (k : nat) :
  (forall y, y ∈ l -> length (f y) = k) ->
  length (l ≫= f) = (length l * k)%nat.
Proof.
  induction l as [|y l IH]; intros Hk; [done|].
  rewrite bind_cons, length_app, IH, (Hk y); simpl.
  - lia.
  - left.
  - intros z Hz. apply Hk. by right.
Qed.

(** There are [n!] orderings of [n] nodes. *)
Lemma length_permutations {A} (l : list A) :
  length (permutations l) = fact (length l).
Proof.
  induction l as [|x l IH]; [done|].
  simpl permutations.
  rewrite (length_bind_const _ _ (S (length l))).
  - rewrite IH. simpl. lia.
  - intros y Hy. rewrite length_interleave.
    apply permutations_Permutation in Hy. by rewrite Hy.
Qed.

Lemma marginal_other (v : coalition -> Q) (C : coalition) pi (i : nat) :
  i ∉ pi -> marginal v C pi i = 0.
Proof.
  revert C. induction pi as [|j rest IH]; intros C Hi; [done|].
  simpl. destruct (decide (j = i)) as [->|Hne].
  - exfalso. apply Hi. left.
  - apply IH. intros Hin. apply Hi. by right.
Qed.

(** Along one ordering the marginal contributions telescope. *)
Lemma marginal_telescope (v : coalition -> Q) pi :
  NoDup pi ->
  forall C : coalition,
    sum_over (marginal v C pi) pi == v (list_to_set pi ∪ C) - v C.
Proof.
  induction 1 as [|j rest Hj Hnd IH]; intros C.
  - unfold sum_over; simpl.
    rewrite (left_id_L ∅ (∪)). ring.
  - rewrite sum_over_cons. simpl marginal at 1.
    rewrite decide_True by done.
    rewrite (sum_over_ext _ (marginal v ({[j]} ∪ C) rest)).
    + rewrite IH. simpl list_to_set.
      rewrite (comm_L (∪) {[j]} (list_to_set rest)), <- (assoc_L (∪)).
      ring.
    + intros i Hi. simpl. rewrite decide_False; [reflexivity|].
      intros ->. contradiction.
Qed.

(** Efficiency for any characteristic function. *)
Lemma shapley_efficiency (v : coalition -> Q) (n : nat) :
  sum_over (shapley_value v n) (seq 0 n) == v (full_coalition n) - v ∅.
Proof.
  unfold shapley_value.
  rewrite sum_over_div, sum_over_swap.
  rewrite (sum_over_ext _ (fun _ => v (full_coalition n) - v ∅)).
  - rewrite sum_over_const, length_permutations, length_seq.
    assert (Hf : ~ inject_Z (Z.of_nat (fact n)) == 0).
    { pose proof (lt_O_fact n) as Hpos.
      intros Heq. unfold Qeq, inject_Z in Heq; simpl in Heq. lia. }
    field. exact Hf.
  - intros pi Hpi. apply permutations_Permutation in Hpi.
    rewrite (sum_over_perm _ _ _ Hpi).
    rewrite marginal_telescope.
    + unfold full_coalition.
      rewrite (right_id_L ∅ (∪)).
      by rewrite <- (list_to_set_perm_L _ _ Hpi).
    + rewrite <- Hpi. apply NoDup_seq.
Qed.

(** A successful tabulation has called the oracle on every listed
    coalition and stored what it returned. *)
Lemma evaluate_all_lookup train cs tbl (c : coalition) :
  evaluate_all train cs = inr tbl -> c ∈ cs ->
  exists q, train c = inr q /\ tbl !! c = Some q.
Proof.
  revert tbl. induction cs as [|c0 cs IH]; intros tbl Hev Hin.
  - by apply elem_of_nil in Hin.
  - simpl in Hev. unfold bindE in Hev.
    destruct (train c0) as [e|q0] eqn:Hc0; [done|].
    destruct (evaluate_all train cs) as [e|tbl0] eqn:Hrest; [done|].
    injection Hev as <-.
    destruct (decide (c = c0)) as [->|Hne].
    + exists q0. split; [done|]. apply lookup_insert_eq.
    + apply elem_of_cons in Hin as [?|Hin]; [done|].
      destruct (IH tbl0 eq_refl Hin) as (q & Hq & Hl).
      exists q. split; [done|]. by rewrite lookup_insert_ne.
Qed.

Lemma coalition_of_mask_ones (n : nat) :
  coalition_of_mask n (Nat.ones n) = full_coalition n.
Proof.
  unfold coalition_of_mask, full_coalition.
  apply set_eq. intros i.
  rewrite !elem_of_list_to_set, list_elem_of_filter, elem_of_seq.
  split; [tauto|]. intros Hi. split; [|done].
  apply Nat.ones_spec_low. lia.
Qed.

Lemma full_coalition_listed (n : nat) :
  (0 < n)%nat -> full_coalition n ∈ coalitions n.
Proof.
  intros Hn. unfold coalitions.
  rewrite <- coalition_of_mask_ones.
  apply list_elem_of_fmap. exists (Nat.ones n). split; [done|].
  apply elem_of_seq. rewrite Nat.ones_equiv.
  assert (2 ^ 1 <= 2 ^ n)%nat by (apply Nat.pow_le_mono_r; lia).
  simpl in *. lia.
Qed.

Lemma full_coalition_nonempty (n : nat) : (0 < n)%nat -> full_coalition n ≠ ∅.
Proof.
  intros Hn Hempty.
  assert (Hin : 0%nat ∈ full_coalition n).
  { unfold full_coalition. apply elem_of_list_to_set, elem_of_seq. lia. }
  rewrite Hempty in Hin. set_solver.
Qed.

(** C1. Whenever compute_SV returns a score vector, the oracle has
    produced a value for the full coalition and for the empty coalition,
    and the scores sum to value(full coalition) - value(empty coalition). *)
Theorem compute_SV_efficiency threshold baseline train n sv var :
  compute_SV threshold baseline train n = inr (sv, var) ->
  exists v_full v_empty,
    evaluate baseline train (full_coalition n) = inr v_full /\
    evaluate baseline train ∅ = inr v_empty /\
    sumQ sv == v_full - v_empty.
Proof.
  unfold compute_SV. intros Hsv.
  destruct (decide (threshold < n)%nat) as [|_]; [done|].
  unfold bindE in Hsv.
  destruct (evaluate_all train (coalitions n)) as [e|tbl] eqn:Htbl; [done|].
  injection Hsv as <- _.
  pose proof (shapley_efficiency (value baseline tbl) n) as Heff.
  unfold sum_over in Heff.
  exists (value baseline tbl (full_coalition n)), baseline.
  split; [|split].
  - unfold evaluate, value.
    destruct (decide (full_coalition n = ∅)) as [|Hne]; [done|].
    destruct n as [|n'].
    { exfalso. apply Hne. unfold full_coalition. set_solver. }
    destruct (evaluate_all_lookup _ _ _ (full_coalition (S n')) Htbl)
      as (q & Hq & Hl).
    + apply full_coalition_listed. lia.
    + by rewrite Hq, Hl.
  - unfold evaluate. by rewrite decide_True.
  - rewrite Heff. unfold value at 2. rewrite decide_True by done. reflexivity.
Qed.

(** The end-to-end scenario of the specification: three nodes and
    [value(S) = 10 * |S|] give the scores 10, 10, 10 and zero variances. *)
Example compute_SV_three_nodes :
  exists sv var,
    compute_SV 10 0 Stub.train_linear 3 = inr (sv, var) /\
    Forall2 Qeq sv [10; 10; 10] /\ var = [0; 0; 0].
Proof.
  do 2 eexists. split; [vm_compute; reflexivity|].
  split; [|reflexivity].
  repeat constructor.
Qed.

(** The two ways the estimator refuses to answer: too many nodes for the
    threshold, and an oracle that fails on the first coalition. *)
Example compute_SV_refusals :
  compute_SV 2 0 Stub.train_linear 3 = inl InfeasibleExactComputation /\
  compute_SV 5 0 Stub.train_fail 3 = inl (TrainingFailure [0%nat]).
Proof. split; vm_compute; reflexivity. Qed.

Lemma compute_SV_efficiency_witness :
  exists sv var,
    compute_SV 10 0 Stub.train_linear 3 = inr (sv, var) /\
    exists v_full v_empty,
      evaluate 0 Stub.train_linear (full_coalition 3) = inr v_full /\
      evaluate 0 Stub.train_linear ∅ = inr v_empty /\
      sumQ sv == v_full - v_empty.
Proof.
  do 2 eexists. split; [vm_compute; reflexivity|].
  eapply (compute_SV_efficiency 10 0 Stub.train_linear 3).
  vm_compute; reflexivity.
Defined.

End ExactShapleyFacts.

(** ** IndependentScoreEstimator: additive normalisation *)

Module IndependentScoresFacts.
Import Num NumFacts Err Oracle IndependentScores.
Local Open Scope Q_scope.

Lemma additive_scores_factor (raw : list Q) (fed : Q) :
  Forall2 (fun r a => a == (fed / sumQ raw) * r) raw (additive_scores raw fed).
Proof.
  unfold additive_scores. generalize (fed / sumQ raw). intros k.
  induction raw as [|r raw IH]; simpl; constructor; [ring|exact IH].
Qed.

Lemma additive_scores_sum (raw : list Q) (fed : Q) :
  ~ sumQ raw == 0 -> sumQ (additive_scores raw fed) == fed.
Proof.
  intros Hnz. unfold additive_scores.
  change (sumQ (map ?f raw)) with (sum_over f raw).
  rewrite sum_over_scale, <- sumQ_sum_over. by field.
Qed.

(** Raw scores of zero stay at zero under any common factor. *)
Lemma zero_raw_never_sums (k : Q) : ~ sumQ (map (Qmult k) [0; 0]) == 1.
Proof.
  unfold sumQ; simpl. intros H.
  assert (H0 : k * 0 + (k * 0 + 0) == 0) by ring.
  rewrite H0 in H. discriminate.
Qed.

(** C3, as stated, fails: two singleton scores of 0 cannot be rescaled to
    sum to a federated score of 1. *)
Lemma additive_sum_counterexample :
  exists raw add,
    compute_independent_scores (Stub.train_const 0) 2 1 = inr (raw, add) /\
    ~ sumQ add == 1.
Proof.
  exists [0; 0], (additive_scores [0; 0] 1).
  split; [reflexivity|]. vm_compute. discriminate.
Qed.

(** C3, amended. Whenever the estimator returns, the raw vector holds the
    singleton scores as the oracle gave them, the additive vector is the
    raw vector times one common factor (relative proportions are kept),
    and, provided the raw scores do not sum to zero, the additive vector
    sums to the supplied federated score. *)
Theorem compute_independent_scores_additive train n fed raw add :
  compute_independent_scores train n fed = inr (raw, add) ->
  ~ sumQ raw == 0 ->
  mapE (fun i => train {[i]}) (seq 0 n) = inr raw /\
  (exists k, Forall2 (fun r a => a == k * r) raw add) /\
  sumQ add == fed.
Proof.
  unfold compute_independent_scores, bindE. intros Hret Hnz.
  destruct (mapE _ (seq 0 n)) as [e|raw0] eqn:Hraw; [done|].
  injection Hret as -> <-.
  split; [done|]. split.
  - exists (fed / sumQ raw). apply additive_scores_factor.
  - by apply additive_scores_sum.
Qed.

Lemma compute_independent_scores_additive_witness :
  exists raw add,
    compute_independent_scores Stub.train_linear 3 (27 # 1) = inr (raw, add) /\
    ~ sumQ raw == 0 /\
    sumQ add == 27 # 1.
Proof.
  do 2 eexists. split; [vm_compute; reflexivity|].
  split; [vm_compute; discriminate|].
  eapply (compute_independent_scores_additive Stub.train_linear 3 (27 # 1)).
  - vm_compute; reflexivity.
  - vm_compute; discriminate.
Defined.

End IndependentScoresFacts.

(** ** TruncatedMonteCarloShapley: termination *)

Module TMCSFacts.
Import Num Err Oracle TMCS.
Local Open Scope Q_scope.

Section Loop.
Variable cfg : Config.
Variable n : nat.
Variables baseline full_coalition_value : Q.
Variable oracle : nat -> coalition -> exn + Q.
Variable draw : nat -> list nat.
Variables quantile sqrtQ : Q -> Q.

Let walk := walk cfg full_coalition_value oracle.
Let round := round cfg baseline full_coalition_value oracle draw.
Let converged := converged cfg quantile.
Let results := results sqrtQ.
Let sampling_loop :=
  sampling_loop cfg baseline full_coalition_value oracle draw quantile sqrtQ.
Let run_rounds := run_rounds cfg baseline full_coalition_value oracle draw.

Lemma length_record_sample smp jm :
  length (record_sample smp jm) = length smp.
Proof. unfold record_sample. apply length_alter. Qed.

Lemma length_record_samples ms smp :
  length (foldl record_sample smp ms) = length smp.
Proof.
  revert smp. induction ms as [|jm ms IH]; intros smp; [done|].
  simpl. by rewrite IH, length_record_sample.
Qed.

(** A completed round counts one more permutation and keeps one sample
    list per node. *)
Lemma round_inr st st' :
  round st = inr st' ->
  iter st' = S (iter st) /\ length (samples st') = length (samples st).
Proof.
  unfold round, TMCS.round, bindE. intros Hr.
  destruct (TMCS.walk _ _ _ _ _ _ _) as [e|r]; [done|].
  injection Hr as <-. simpl. by rewrite length_record_samples.
Qed.

(** With an oracle that never raises, a walk never raises. *)
Lemma walk_total pi :
  (forall k C, exists q, oracle k C = inr q) ->
  forall k C v_prev, exists r, walk k C v_prev pi = inr r.
Proof.
  intros Hok. induction pi as [|j rest IH]; intros k C v_prev.
  - by eexists.
  - unfold walk; cbn [TMCS.walk].
    destruct (Qlt_le_dec _ _) as [_|_]; [by eexists|].
    destruct (Hok k ({[j]} ∪ C)) as [v_curr ->]. simpl.
    destruct (IH (S k) ({[j]} ∪ C) v_curr) as [r Hr].
    unfold walk in Hr. rewrite Hr. simpl. by eexists.
Qed.

Lemma round_total st :
  (forall k C, exists q, oracle k C = inr q) -> exists st', round st = inr st'.
Proof.
  intros Hok. unfold round, TMCS.round.
  destruct (walk_total (draw (iter st)) Hok (oracle_calls st) ∅ baseline)
    as [r Hr].
  unfold walk in Hr. rewrite Hr. simpl. by eexists.
Qed.

(** The loop returns as soon as the fuel exceeds the number of permutations
    still allowed by the cap. *)
Lemma sampling_loop_returns fuel st :
  (max_iter cfg - iter st < fuel)%nat ->
  exists out,
    sampling_loop fuel st = Some out /\
    ((forall k C, exists q, oracle k C = inr q) -> exists r, out = inr r) /\
    (forall r, out = inr r ->
       length (sv r) = length (samples st) /\
       length (std_sv r) = length (samples st) /\
       (iterations r <= Nat.max (iter st) (max_iter cfg))%nat /\
       (fully_converged r = false -> (max_iter cfg <= iterations r)%nat) /\
       (fully_converged r = true ->
          exists st', r = results st' true /\ converged st' = true)).
Proof.
  revert st. induction fuel as [|fuel IH]; intros st Hfuel; [lia|].
  unfold sampling_loop; simpl.
  destruct (decide (max_iter cfg <= iter st)%nat) as [Hcap|Hcap].
  - eexists. split; [done|]. split; [by eexists|].
    intros r [= <-]. simpl. rewrite !length_map.
    repeat split; try done; lia.
  - destruct (TMCS.round _ _ _ _ _ st) as [e|st'] eqn:Hround.
    + eexists. split; [done|]. split; [|done].
      intros Hok. destruct (round_total st Hok) as [st' Hst'].
      unfold round in Hst'. congruence.
    + destruct (round_inr st st' Hround) as [Hiter Hlen].
      destruct (TMCS.converged cfg quantile st') eqn:Hconv.
      * eexists. split; [done|]. split; [by eexists|].
        intros r [= <-]. simpl. rewrite !length_map.
        repeat split; try done; try lia.
        intros _. by exists st'.
      * destruct (IH st') as (out & Hout & Hok & Hres); [lia|].
        exists out. split; [exact Hout|]. split; [exact Hok|].
        intros r Hr. destruct (Hres r Hr) as (H1 & H2 & H3 & H4 & H5).
        repeat split; try done; lia.
Qed.

(** What a returned result is made of: the state reached by the rounds
    actually sampled. *)
Lemma sampling_loop_result fuel st r :
  sampling_loop fuel st = Some (inr r) ->
  exists k st',
    run_rounds k st = inr st' /\
    iterations r = (iter st + k)%nat /\
    r = results st' (fully_converged r) /\
    (forall j st_j, (0 < j < k)%nat -> run_rounds j st = inr st_j ->
                    converged st_j = false) /\
    (fully_converged r = true -> (0 < k)%nat /\ converged st' = true) /\
    (fully_converged r = false ->
       (max_iter cfg <= iter st')%nat /\
       ((0 < k)%nat -> converged st' = false /\ iter st' = max_iter cfg)).
Proof.
  revert st. induction fuel as [|fuel IH]; intros st Hrun; [done|].
  unfold sampling_loop in Hrun; simpl in Hrun.
  destruct (decide (max_iter cfg <= iter st)%nat) as [Hcap|Hcap].
  - injection Hrun as <-. exists 0%nat, st. simpl.
    split; [done|]. split; [lia|]. split; [done|].
    split; [intros; lia|]. split; [done|].
    intros _. split; [done|lia].
  - destruct (TMCS.round _ _ _ _ _ st) as [e|st1] eqn:Hround; [done|].
    destruct (round_inr st st1 Hround) as [Hiter Hlen].
    destruct (TMCS.converged cfg quantile st1) eqn:Hconv.
    + injection Hrun as <-. exists 1%nat, st1. simpl.
      unfold round. rewrite Hround. simpl.
      split; [done|]. split; [lia|]. split; [done|].
      split; [intros; lia|].
      split; [intros _; split; [lia|exact Hconv]|]. intros Hf. discriminate Hf.
    + apply IH in Hrun
        as (k & st' & Hrounds & Hcount & Hres & Hbefore & Htrue & Hfalse).
      exists (S k), st'. simpl. unfold round. rewrite Hround. simpl.
      split; [exact Hrounds|]. split; [lia|]. split; [exact Hres|].
      split; [|split].
      * intros [|j] st_j Hj Hst_j; [lia|].
        simpl in Hst_j. unfold round in Hst_j. rewrite Hround in Hst_j.
        simpl in Hst_j.
        destruct j as [|j].
        -- simpl in Hst_j. injection Hst_j as <-. exact Hconv.
        -- apply (Hbefore (S j) st_j); [lia|exact Hst_j].
      * intros Ht. destruct (Htrue Ht) as [_ Hc]. split; [lia|exact Hc].
      * intros Hf. destruct (Hfalse Hf) as [Hmax Hlast].
        split; [exact Hmax|]. intros _.
        destruct k as [|k].
        -- simpl in Hrounds. injection Hrounds as <-.
           split; [exact Hconv|lia].
        -- apply Hlast. lia.
Qed.

End Loop.

(** C2. For every configuration, oracle, permutation source and float
    primitives, the estimator returns once the fuel exceeds the iteration
    cap: it does not loop forever.  Unless the oracle itself raises, it
    returns a result, with one score and one deviation per node, obtained
    within the cap.  Apart from the single-node shortcut, the result is the
    estimate computed from the state reached by the sampling rounds
    actually run, as many as the result reports: the stopping criterion
    held after none of the earlier rounds; a result flagged as converged
    was returned because the criterion held after the last round; a result
    not flagged was returned after exactly [max_iter] rounds, the
    criterion never having held: it is the best estimate at the cap. *)
Theorem truncated_MC_terminates cfg n baseline full_coalition_value oracle
    draw quantile sqrtQ (extra : nat) :
  exists out,
    truncated_MC cfg n baseline full_coalition_value oracle draw quantile
      sqrtQ (S (max_iter cfg + extra)) = Some out /\
    ((forall k C, exists q, oracle k C = inr q) -> exists r, out = inr r) /\
    (forall r, out = inr r ->
       length (sv r) = n /\ length (std_sv r) = n /\
       (iterations r <= max_iter cfg)%nat /\
       (fully_converged r = false -> iterations r = max_iter cfg) /\
       (n = 1%nat /\
        r = {| sv := [full_coalition_value - baseline]%Q; std_sv := [0%Q];
               iterations := 0; fully_converged := true |}
        \/
        n <> 1%nat /\
        exists st,
          run_rounds cfg baseline full_coalition_value oracle draw
            (iterations r) (initial_state n) = inr st /\
          r = results sqrtQ st (fully_converged r) /\
          (forall j st_j,
             (0 < j < iterations r)%nat ->
             run_rounds cfg baseline full_coalition_value oracle draw
               j (initial_state n) = inr st_j ->
             converged cfg quantile st_j = false) /\
          (fully_converged r = true ->
             (0 < iterations r)%nat /\ converged cfg quantile st = true) /\
          (fully_converged r = false ->
             (0 < max_iter cfg)%nat -> converged cfg quantile st = false))).
Proof.
  unfold truncated_MC.
  destruct (decide (n = 1%nat)) as [->|Hn].
  - eexists. split; [done|]. split; [by eexists|].
    intros r [= <-]. simpl.
    split; [done|]. split; [done|]. split; [lia|]. split; [done|].
    by left.
  - destruct (sampling_loop_returns cfg baseline full_coalition_value oracle
                draw quantile sqrtQ (S (max_iter cfg + extra)) (initial_state n))
      as (out & Hout & Hok & Hres); [simpl; lia|].
    exists out. split; [exact Hout|]. split; [exact Hok|].
    intros r ->. destruct (Hres r eq_refl) as (H1 & H2 & H3 & H4 & _).
    simpl in H1, H2, H3. rewrite length_replicate in H1, H2.
    apply sampling_loop_result in Hout
      as (k & st & Hrounds & Hcount & Hr & Hbefore & Htrue & Hfalse).
    simpl in Hcount. subst k.
    split; [done|]. split; [done|]. split; [lia|].
    split; [intros Hf; specialize (H4 Hf); lia|].
    right. split; [done|]. exists st.
    split; [exact Hrounds|]. split; [exact Hr|]. split; [exact Hbefore|].
    split; [exact Htrue|].
    intros Hf Hcap. destruct (Hfalse Hf) as [_ Hlast].
    apply Hlast. specialize (H4 Hf). lia.
Qed.

(** A degenerate oracle, with the same score for every coalition, gives
    samples of zero variance on which the criterion never fires: the run
    is stopped by the cap after five permutations, and with too little
    fuel the model has not yet returned. *)
Example tmcs_degenerate_stops_at_cap :
  (exists r, Stub.tmcs_degenerate 1 6 = Some (inr r) /\
             iterations r = 5%nat /\ fully_converged r = false /\
             Forall2 Qeq (sv r) [1; 0]) /\
  (exists r, Stub.tmcs_degenerate 0 6 = Some (inr r) /\
             iterations r = 5%nat /\ fully_converged r = false /\
             Forall2 Qeq (sv r) [0; 0]) /\
  Stub.tmcs_degenerate 1 3 = None.
Proof.
  split; [|split].
  - eexists. split; [vm_compute; reflexivity|].
    split; [done|]. split; [done|]. by repeat constructor.
  - eexists. split; [vm_compute; reflexivity|].
    split; [done|]. split; [done|]. by repeat constructor.
  - vm_compute; reflexivity.
Qed.

End TMCSFacts.

(** ** simulation_run.py: orchestration *)

Module SimFacts.
Import Num NumFacts Err ContributivityRecord Csv Sim.
Local Open Scope Q_scope.

(** *** The monad *)

Lemma bind_inr {A B} (m : M A) (k : A -> M B) w b w' :
  bind m k w = (inr b, w') ->
  exists a w1, m w = (inr a, w1) /\ k a w1 = (inr b, w').
Proof.
  unfold bind. destruct (m w) as [[e|a] w1]; [done|]. by exists a, w1.
Qed.

Lemma bind_returns {A B} (m : M A) (k : A -> M B) w a w1 :
  m w = (inr a, w1) -> bind m k w = k a w1.
Proof. unfold bind. by intros ->. Qed.

(** An exception raised by the first computation skips the continuation:
    the final world is the world at the point of failure. *)
Lemma bind_raises {A B} (m : M A) (k : A -> M B) w e w1 :
  m w = (inl e, w1) -> bind m k w = (inl e, w1).
Proof. unfold bind. by intros ->. Qed.

Lemma lift_inr {A} (r : exn + A) w a w' :
  lift r w = (inr a, w') -> r = inr a /\ w' = w.
Proof. unfold lift. by intros [= -> ->]. Qed.

Lemma bind_lift_inr {A B} (r : exn + A) (k : A -> M B) w a :
  r = inr a -> bind (lift r) k w = k a w.
Proof. by intros ->. Qed.

(** An exception in the body of a loop ends the loop at once. *)
Lemma for_each_raises {A St} (l1 : list A) x l2 (body : A -> St -> M St)
    st w st1 w1 e w2 :
  for_each l1 body st w = (inr st1, w1) ->
  body x st1 w1 = (inl e, w2) ->
  for_each (l1 ++ x :: l2) body st w = (inl e, w2).
Proof.
  revert st w. induction l1 as [|y l1 IH]; intros st w Hpre Hx.
  - injection Hpre as -> ->. simpl. by apply bind_raises.
  - simpl in *. apply bind_inr in Hpre as (st0 & w0 & Hy & Hrest).
    rewrite (bind_returns _ _ _ _ _ Hy). by apply IH.
Qed.

(** *** Relations between the worlds before and after a computation *)

Section Respects.
Context (R : relation world) `{!PreOrder R}.

Lemma respects_ret {A} (a : A) : respects R (ret a).
Proof. intros w. simpl. reflexivity. Qed.

Lemma respects_raise {A} (e : exn) : respects R (@raise A e).
Proof. intros w. simpl. reflexivity. Qed.

Lemma respects_lift {A} (r : exn + A) : respects R (lift r).
Proof. intros w. simpl. reflexivity. Qed.

Lemma respects_call_count : respects R call_count.
Proof. intros w. simpl. reflexivity. Qed.

Lemma respects_bind {A B} (m : M A) (k : A -> M B) :
  respects R m -> (forall a, respects R (k a)) -> respects R (bind m k).
Proof.
  intros Hm Hk w. unfold bind. specialize (Hm w).
  destruct (m w) as [[e|a] w1]; simpl in *; [done|].
  etrans; [exact Hm|apply Hk].
Qed.

Lemma respects_for_each {A St} (l : list A) (body : A -> St -> M St) st :
  (forall x st, respects R (body x st)) -> respects R (for_each l body st).
Proof.
  intros Hbody. revert st. induction l as [|x l IH]; intros st; simpl.
  - apply respects_ret.
  - apply respects_bind; [apply Hbody|apply IH].
Qed.

End Respects.

#[local] Instance csv_untouched_preorder : PreOrder csv_untouched.
Proof.
  split.
  - by intros w.
  - intros w1 w2 w3 [H1 H2] [H3 H4]. split; congruence.
Qed.

#[local] Instance clock_untouched_preorder : PreOrder clock_untouched.
Proof.
  split.
  - by intros w.
  - intros w1 w2 w3 H1 H2. unfold clock_untouched in *. congruence.
Qed.

#[local] Instance calls_extended_preorder P : PreOrder (calls_extended P).
Proof.
  split.
  - intros w. exists []. split; [by rewrite app_nil_r|constructor].
  - intros w1 w2 w3 (n1 & H1 & F1) (n2 & H2 & F2).
    exists (n1 ++ n2). split.
    + by rewrite H2, H1, app_assoc.
    + by apply Forall_app.
Qed.

#[local] Instance budget_kept_preorder : PreOrder budget_kept.
Proof.
  split.
  - by intros w.
  - intros w1 w2 w3 H1 H2. unfold budget_kept in *. congruence.
Qed.

Lemma csv_untouched_budget w w' : csv_untouched w w' -> budget_kept w w'.
Proof.
  intros [Hf Hh]. unfold budget_kept, header_budget, headers_written.
  by rewrite Hf, Hh.
Qed.

Lemma respects_weaken {A} (R R' : relation world) (m : M A) :
  (forall w w', R w w' -> R' w w') -> respects R m -> respects R' m.
Proof. intros Himp Hm w. apply Himp, Hm. Qed.


(** *** Steps of the script *)

Section Script.
Context {Node Data Params : Type} {ext : Externals Node Data Params}.

(** The world after one reading of the clock. *)
Let tick (w : world) : world := snd (timer w).

Lemma respects_timer_csv : respects csv_untouched timer.
Proof. by intros w. Qed.

Lemma respects_log_call_csv c : respects csv_untouched (log_call c).
Proof. by intros w. Qed.

Lemma respects_log_call_clock c : respects clock_untouched (log_call c).
Proof. by intros w. Qed.

Lemma respects_timer_calls P : respects (calls_extended P) timer.
Proof.
  intros w. exists []. simpl. split; [by rewrite app_nil_r|constructor].
Qed.

Lemma respects_log_call_calls (P : call -> Prop) c :
  P c -> respects (calls_extended P) (log_call c).
Proof. intros Hc w. exists [c]. simpl. split; [done|by constructor]. Qed.

Lemma respects_append_results_calls P df :
  respects (calls_extended P) (append_results df).
Proof.
  intros w. exists []. simpl. split; [by rewrite app_nil_r|constructor].
Qed.

(** Decomposes a computation built from [bind], [for_each], conditionals
    and external calls into its primitive steps. *)
Ltac respects_steps :=
  repeat first
    [ apply respects_ret; tc_solve
    | apply respects_raise; tc_solve
    | apply respects_lift; tc_solve
    | apply respects_call_count; tc_solve
    | apply respects_bind; [tc_solve| |intros ?]
    | apply respects_for_each; [tc_solve|intros ? ?]
    | case_decide
    | match goal with
      | |- respects _ (match ?x with _ => _ end) => destruct x
      end ].

Lemma compute_scores_csv method s sd :
  respects csv_untouched (compute_scores method s sd).
Proof.
  unfold compute_scores. respects_steps; apply respects_log_call_csv.
Qed.

Lemma compute_scores_clock method s sd :
  respects clock_untouched (compute_scores method s sd).
Proof.
  unfold compute_scores. respects_steps; apply respects_log_call_clock.
Qed.

Lemma compute_scores_calls method s sd :
  respects (calls_extended default_arguments) (compute_scores method s sd).
Proof.
  unfold compute_scores.
  respects_steps; by apply respects_log_call_calls.
Qed.

Lemma run_method_csv method st : respects csv_untouched (run_method method st).
Proof.
  unfold run_method, append_records.
  respects_steps;
    first [apply respects_timer_csv | apply compute_scores_csv].
Qed.

Lemma run_method_calls method st :
  respects (calls_extended default_arguments) (run_method method st).
Proof.
  unfold run_method, append_records.
  respects_steps;
    first [apply respects_timer_calls | apply compute_scores_calls].
Qed.

Lemma run_scenario_csv s : respects csv_untouched (run_scenario s).
Proof.
  unfold run_scenario, prepare.
  respects_steps;
    first [apply respects_timer_csv | apply compute_scores_csv].
Qed.

Lemma run_scenario_calls s :
  respects (calls_extended default_arguments) (run_scenario s).
Proof.
  unfold run_scenario, prepare.
  respects_steps;
    first [apply respects_timer_calls | apply compute_scores_calls].
Qed.

(** Appending the records of a [score_dict] leaves the world alone and
    extends the collection by one record per entry, in order. *)
Lemma append_records_inr elapsed d s w s' w' :
  append_records elapsed d s w = (inr s', w') ->
  w' = w /\
  contributivity_list s' = contributivity_list s ++ map (record_of elapsed) d.
Proof.
  unfold append_records. revert s w.
  induction d as [|entry d IH]; intros s w Hrun; simpl in Hrun.
  - injection Hrun as <- <-. by rewrite app_nil_r.
  - apply bind_inr in Hrun as (s1 & w1 & Hstep & Hrest).
    apply bind_inr in Hstep as (c & w2 & Hinit & Hret).
    apply lift_inr in Hinit as [Hinit ->].
    injection Hret as <- <-.
    apply Contributivity_init_fields in Hinit.
    destruct (IH _ _ Hrest) as [-> Hlist].
    split; [done|]. rewrite Hlist. simpl.
    rewrite <- app_assoc. simpl. by rewrite Hinit.
Qed.

(** What a returning loop body has done: it read the clock, computed the
    score dictionary [d], read the clock again, and appended one record per
    entry of [d], all stamped with the rounded difference of the readings. *)
Lemma run_method_inr method st w st' w' :
  run_method method st w = (inr st', w') ->
  exists d w1,
    compute_scores method (fst st) (snd st) (tick w) = (inr (Some d), w1) /\
    snd st' = Some d /\
    w' = tick w1 /\
    contributivity_list (fst st') =
      contributivity_list (fst st)
      ++ map (record_of (inject_Z (np_round (float_sub (timer_at (S (ticks w)))
                              (timer_at (ticks w)))))) d.
Proof.
  unfold run_method. intros Hrun.
  apply bind_inr in Hrun as (start & w0 & Hstart & Hrun).
  injection Hstart as <- <-.
  apply bind_inr in Hrun as (sd & w1 & Hsd & Hrun).
  apply bind_inr in Hrun as (end_ & w2 & Hend & Hrun).
  injection Hend as <- <-.
  destruct sd as [d|]; [|done].
  apply bind_inr in Hrun as (s' & w3 & Happ & Hret).
  injection Hret as <- <-.
  apply append_records_inr in Happ as [-> Hlist].
  exists d, w1. split; [exact Hsd|]. split; [done|]. split; [done|].
  simpl. rewrite Hlist.
  assert (Hclock : ticks w1 = S (ticks w)).
  { match type of Hsd with
    | _ ?w0 = _ =>
        pose proof (compute_scores_clock method (fst st) (snd st) w0) as Hc
    end.
    unfold clock_untouched in Hc. by rewrite Hsd in Hc. }
  by rewrite Hclock.
Qed.

(** The score dictionary after the [if/elif] chain. *)
Lemma compute_scores_inr method s sd w sd' w' :
  compute_scores method s sd w = (inr sd', w') ->
  (method = "Shapley values" /\
     exists sc var, sd' = Some [("Shapley values", (sc, var))]) \/
  (method = "Independant scores" /\
     exists raw add,
       sd' = Some [("Independant scores raw", (raw, repeat 0 (length raw)));
                   ("Independant scores additive",
                      (add, repeat 0 (length add)))]) \/
  (method = "TMCS values" /\
     exists sc dev, sd' = Some [("TMCS values", (sc, dev))]) \/
  (~ recognized method /\ sd' = sd /\ w' = w).
Proof.
  unfold compute_scores. intros Hrun.
  repeat case_decide.
  - left. split; [done|].
    apply bind_inr in Hrun as (k & w1 & _ & Hrun).
    apply bind_inr in Hrun as (u & w2 & _ & Hrun).
    apply bind_inr in Hrun as (r & w3 & _ & Hrun).
    injection Hrun as <- _. by eexists _, _.
  - right; left. split; [done|].
    apply bind_inr in Hrun as (k & w1 & _ & Hrun).
    apply bind_inr in Hrun as (u & w2 & _ & Hrun).
    apply bind_inr in Hrun as (r & w3 & _ & Hrun).
    injection Hrun as <- _. by eexists _, _.
  - right; right; left. split; [done|].
    apply bind_inr in Hrun as (k & w1 & _ & Hrun).
    apply bind_inr in Hrun as (u & w2 & _ & Hrun).
    apply bind_inr in Hrun as (r & w3 & _ & Hrun).
    injection Hrun as <- _. by eexists _, _.
  - right; right; right. injection Hrun as <- <-.
    split; [|done]. unfold recognized. tauto.
Qed.

(** *** Arguments of the TMCS call *)

Lemma main_calls n_repeats scenario_params_list :
  respects (calls_extended default_arguments)
    (main n_repeats scenario_params_list).
Proof.
  unfold main, main_iteration.
  respects_steps;
    first [ apply respects_timer_calls | apply compute_scores_calls
          | apply respects_append_results_calls ].
Qed.

(** C4. The branch for "TMCS values" logs and makes exactly one call,
    truncated_MC(current_scenario, sv_accuracy=0.01, alpha=0.9,
    contrib_accuracy=0.05), and every call to truncated_MC made during
    run_scenario, hence during main, carries these three values. *)
Theorem truncated_MC_called_with_defaults :
  (forall s sd w,
     compute_scores "TMCS values" s sd w =
       (match truncated_MC (length (calls w)) s (1 # 100) (9 # 10) (5 # 100) with
        | inl e => inl e
        | inr t => inr (Some [("TMCS values", (tmcs_sv t, tmcs_std_sv t))])
        end,
        snd (log_call (Call_truncated_MC (1 # 100) (9 # 10) (5 # 100)) w))) /\
  (forall s w, exists new,
     calls (snd (run_scenario s w)) = calls w ++ new /\
     Forall default_arguments new) /\
  (forall n_repeats scenario_params_list w, exists new,
     calls (snd (main n_repeats scenario_params_list w)) = calls w ++ new /\
     Forall default_arguments new).
Proof.
  split; [|split].
  - intros s sd w. unfold compute_scores.
    rewrite decide_False by discriminate.
    rewrite decide_False by discriminate.
    rewrite decide_True by reflexivity.
    unfold bind, call_count, log_call, lift, ret. simpl.
    by destruct (truncated_MC _ _ _ _ _).
  - intros s w. apply run_scenario_calls.
  - intros n_repeats scenario_params_list w. apply main_calls.
Qed.

(** *** Exceptions *)

(** C5, amended. Nothing in the script catches an exception.  If, in some
    iteration of main, the scenario is built and prepared, the methods
    before [method] run, and the body of the method loop raises [e] for
    [method], then run_scenario raises [e], main raises [e], and the final
    world is the world at the moment of the failure: the remaining methods,
    scenarios and repeats are never run and the results of the failing
    scenario are never written to results.csv. *)
Theorem failure_aborts_main n_repeats scenario_params_list
    jobs_before job jobs_after w w1 s df w2 s1 before method after st w3 e w4 :
  main_jobs n_repeats scenario_params_list = jobs_before ++ job :: jobs_after ->
  for_each jobs_before main_iteration tt w = (inr tt, w1) ->
  amounts_per_node (snd (snd job)) = inr tt ->
  Scenario_init (snd (snd job)) = inr s ->
  to_dataframe s = inr df ->
  prepare s w1 = (inr s1, w2) ->
  methods s1 = before ++ method :: after ->
  for_each before run_method (s1, None) w2 = (inr st, w3) ->
  run_method method st w3 = (inl e, w4) ->
  run_scenario s w1 = (inl e, w4) /\
  main n_repeats scenario_params_list w = (inl e, w4) /\
  results_csv w4 = results_csv w1 /\
  csv_headers w4 = csv_headers w1.
Proof.
  intros Hjobs Hbefore Hamounts Hinit Hdf Hprep Hmethods Hloop Hfail.
  assert (Hscenario : run_scenario s w1 = (inl e, w4)).
  { unfold run_scenario.
    rewrite (bind_returns _ _ _ _ _ Hprep), Hmethods.
    apply bind_raises. by eapply for_each_raises. }
  split; [exact Hscenario|]. split.
  - unfold main. apply bind_raises. rewrite Hjobs.
    eapply for_each_raises; [exact Hbefore|].
    unfold main_iteration.
    rewrite (bind_lift_inr _ _ _ _ Hamounts).
    rewrite (bind_lift_inr _ _ _ _ Hinit).
    rewrite (bind_lift_inr _ _ _ _ Hdf).
    by apply bind_raises.
  - pose proof (run_scenario_csv s w1) as Hcsv.
    unfold csv_untouched in Hcsv. by rewrite Hscenario in Hcsv.
Qed.

(** *** Records created per method *)

Lemma run_method_records method st w st' w' :
  recognized method ->
  run_method method st w = (inr st', w') ->
  exists new,
    contributivity_list (fst st') = contributivity_list (fst st) ++ new /\
    map name new = record_names method.
Proof.
  intros Hrec Hrun.
  apply run_method_inr in Hrun as (d & w1 & Hd & _ & _ & Hlist).
  eexists. split; [exact Hlist|].
  rewrite map_map.
  apply compute_scores_inr in Hd
    as [(-> & sc & var & Hd)|[(-> & raw & add & Hd)|
        [(-> & sc & dev & Hd)|(Hno & _)]]];
    [injection Hd as ->; reflexivity..|contradiction].
Qed.

Lemma run_methods_records ms st w st' w' :
  Forall recognized ms ->
  for_each ms run_method st w = (inr st', w') ->
  exists new,
    contributivity_list (fst st') = contributivity_list (fst st) ++ new /\
    map name new = concat (map record_names ms).
Proof.
  intros Hrec. revert st w.
  induction Hrec as [|m ms Hm _ IH]; intros st w Hrun; simpl in Hrun.
  - injection Hrun as <- _. exists []. by rewrite app_nil_r.
  - apply bind_inr in Hrun as (st1 & w1 & Hstep & Hrest).
    destruct (run_method_records _ _ _ _ _ Hm Hstep) as (new1 & Hl1 & Hn1).
    destruct (IH _ _ Hrest) as (new2 & Hl2 & Hn2).
    exists (new1 ++ new2). split.
    + by rewrite Hl2, Hl1, app_assoc.
    + simpl. by rewrite map_app, Hn1, Hn2.
Qed.

(** C6, amended. In a scenario run that returns and whose methods are
    among the three recognised names, every method gives rise to one record
    per entry of its score dictionary: exactly one for "Shapley values" and
    for "TMCS values", exactly two ("Independant scores raw" and
    "Independant scores additive") for "Independant scores".  The records
    are appended in that order to the collection of the prepared scenario,
    whose earlier records are left as they were. *)
Theorem run_scenario_records s w s1 w1 s' w' :
  prepare s w = (inr s1, w1) ->
  Forall recognized (methods s1) ->
  run_scenario s w = (inr s', w') ->
  exists new,
    contributivity_list s' = contributivity_list s1 ++ new /\
    map name new = concat (map record_names (methods s1)).
Proof.
  intros Hprep Hrec Hrun. unfold run_scenario in Hrun.
  rewrite (bind_returns _ _ _ _ _ Hprep) in Hrun.
  apply bind_inr in Hrun as (st & w2 & Hloop & Hrun).
  apply bind_inr in Hrun as (u & w3 & _ & Hret).
  injection Hret as <- _.
  by apply (run_methods_records _ _ _ _ _ Hrec Hloop).
Qed.

(** *** Variances of the independent scores *)

(** C8. When the method "Independant scores" has run, two records have
    been appended, "Independant scores raw" and "Independant scores
    additive", and the variance vector of each is a vector of zeros as
    long as its score vector. *)
Theorem independent_scores_zero_variance st w st' w' :
  run_method "Independant scores" st w = (inr st', w') ->
  exists raw additive,
    contributivity_list (fst st') =
      contributivity_list (fst st) ++ [raw; additive] /\
    name raw = "Independant scores raw" /\
    name additive = "Independant scores additive" /\
    Forall (fun c =>
              length (scores_var c) = length (contributivity_scores c) /\
              Forall (fun x => x = 0) (scores_var c))
           [raw; additive].
Proof.
  intros Hrun.
  apply run_method_inr in Hrun as (d & w1 & Hd & _ & _ & Hlist).
  apply compute_scores_inr in Hd
    as [(? & _)|[(_ & raw & add & Hd)|[(? & _)|(Hno & _)]]];
    [discriminate| |discriminate|].
  - injection Hd as ->. simpl in Hlist.
    eexists _, _. split; [exact Hlist|].
    split; [done|]. split; [done|].
    assert (Hzeros : forall l : list Q,
               length (repeat 0 (length l)) = length l /\
               Forall (fun x => x = 0) (repeat 0 (length l))).
    { intros l. split; [apply repeat_length|].
      induction (length l); simpl; by constructor. }
    constructor; [apply Hzeros|].
    constructor; [apply Hzeros|constructor].
  - exfalso. apply Hno. unfold recognized. tauto.
Qed.

(** *** Elapsed time *)

(** C9. Every record built for a method carries the same elapsed time:
    [np.round(end - start)], where [start] and [end] are the clock readings
    taken before and after the method's computation and [end - start] is
    their difference as Python computes it on floats.  It is an integer at
    distance at most one half from that difference. *)
Theorem records_share_rounded_duration method st w st' w' :
  run_method method st w = (inr st', w') ->
  let start := timer_at (ticks w) in
  let end_ := timer_at (S (ticks w)) in
  let duration := float_sub end_ start in
  exists new,
    contributivity_list (fst st') = contributivity_list (fst st) ++ new /\
    Forall (fun c => computation_time c = inject_Z (np_round duration)) new /\
    Qabs (duration - inject_Z (np_round duration)) <= 1 # 2.
Proof.
  intros Hrun start end_ duration.
  apply run_method_inr in Hrun as (d & w1 & _ & _ & _ & Hlist).
  eexists. split; [exact Hlist|]. split.
  - apply Forall_forall. intros c Hc.
    apply list_elem_of_fmap in Hc as (entry & -> & _).
    reflexivity.
  - apply np_round_nearest.
Qed.

(** *** The header of results.csv *)

(** [f.tell() == 0] exactly when the file has no line. *)
Lemma tell_zero (file : list string) : tell file = 0%nat <-> file = [].
Proof.
  destruct file as [|line file]; simpl; [done|]. split; [lia|done].
Qed.

Lemma tell_eqb (file : list string) :
  Nat.eqb (tell file) 0 = bool_decide (file = []).
Proof.
  destruct file as [|line file]; [done|].
  apply Nat.eqb_neq. rewrite tell_zero. done.
Qed.

Lemma append_results_budget df : respects budget_kept (append_results df).
Proof.
  intros w. unfold budget_kept, header_budget, headers_written. simpl.
  rewrite tell_eqb, filter_app, length_app.
  destruct (results_csv w) as [|line file]; simpl; lia.
Qed.

Lemma main_budget n_repeats scenario_params_list :
  respects budget_kept (main n_repeats scenario_params_list).
Proof.
  unfold main, main_iteration.
  respects_steps;
    first [ apply append_results_budget
          | apply (respects_weaken csv_untouched);
            [ apply csv_untouched_budget
            | first [apply respects_timer_csv | apply compute_scores_csv] ] ].
Qed.

(** C10. Each append to results.csv writes the header row exactly when
    the file is empty at that moment, and during one experiment the header
    is written at most once: not at all when results.csv already had
    content when main started. *)
Theorem header_written_at_most_once :
  (forall df w,
     let header := bool_decide (results_csv w = []) in
     append_results df w =
       (inr tt, {| ticks := ticks w; calls := calls w;
                   results_csv := results_csv w ++ to_csv header df;
                   csv_headers := csv_headers w ++ [header] |})) /\
  (forall n_repeats scenario_params_list file,
     let w' := snd (main n_repeats scenario_params_list (initial_world file)) in
     (headers_written w' <= 1)%nat /\
     (file <> [] -> headers_written w' = 0%nat)).
Proof.
  split.
  - intros df w. unfold append_results. by rewrite tell_eqb.
  - intros n_repeats scenario_params_list file w'.
    pose proof (main_budget n_repeats scenario_params_list (initial_world file))
      as Hkept.
    fold w' in Hkept. unfold budget_kept, header_budget in Hkept.
    unfold headers_written at 2 in Hkept. simpl in Hkept.
    destruct (decide (results_csv w' = [])), (decide (file = []));
      split; intros; first [lia | done].
Qed.

End Script.


(** *** The script on the closed instance *)

Import Stub.

(** C5, as stated, fails. The exact estimator raises in the second
    scenario of the first repeat: main raises the same exception, the
    remaining method "TMCS values" is never called, the second repeat never
    starts, and results.csv holds the first scenario only. *)
Lemma failure_isolation_counterexample :
  main (ext := failing) 2 experiment (initial_world []) =
    (inl (TrainingFailure [1; 0]%nat),
     {| ticks := 5;
        calls := [Call_compute_independent_scores;
                  Call_compute_independent_scores; Call_compute_SV];
        results_csv :=
          ["contributivity_method,random_state,scenario_id";
           "Independant scores raw,0,0"; "Independant scores additive,0,0"];
        csv_headers := [true] |}).
Proof. vm_compute. reflexivity. Qed.

(** On a fresh experiment folder the header is written by the first append
    and by no later one. *)
Example main_writes_header_once :
  csv_headers (snd (main (ext := ok) 2 experiment (initial_world [])))
  = [true; false; false; false].
Proof. vm_compute. reflexivity. Qed.

Lemma failure_aborts_main_witness :
  exists e w4,
    main (ext := failing) 2 experiment (initial_world []) = (inl e, w4) /\
    results_csv w4 =
      ["contributivity_method,random_state,scenario_id";
       "Independant scores raw,0,0"; "Independant scores additive,0,0"].
Proof.
  pose (p0 := ["Independant scores"] : list string).
  pose (p1 := ["Independant scores"; "Shapley values"; "TMCS values"]
              : list string).
  pose (w := initial_world []).
  pose (w1 := snd (for_each [(0, (0, p0))]%nat (main_iteration (ext := failing))
                     tt w)).
  pose (s := stub_scenario p1).
  pose (s1 := set_federated_test_score s 30).
  pose (loop := for_each ["Independant scores"] (run_method (ext := failing))
                  (s1, None) w1).
  pose (st := match fst loop with inr st => st | inl _ => (s1, None) end).
  pose (w3 := snd loop).
  pose (w4 := snd (run_method (ext := failing) "Shapley values" st w3)).
  exists (TrainingFailure [1; 0]%nat), w4.
  destruct (failure_aborts_main (ext := failing) 2 experiment
              [(0, (0, p0))]%nat (0, (1, p1))%nat
              [(1, (0, p0)); (1, (1, p1))]%nat
              w w1 s
              {| columns := ["contributivity_method"]; rows := [] |}
              w1 s1 ["Independant scores"] "Shapley values" ["TMCS values"]
              st w3 (TrainingFailure [1; 0]%nat) w4)
    as (_ & Hmain & Hcsv & _); try (vm_compute; reflexivity).
  split; [exact Hmain|]. rewrite Hcsv. vm_compute; reflexivity.
Defined.

(** C6, as stated, fails. A scenario whose only method is "Independant
    scores" ends with two records. *)
Lemma one_record_per_method_counterexample :
  exists s',
    fst (run_scenario (ext := ok) (stub_scenario ["Independant scores"])
           (initial_world [])) = inr s' /\
    length (methods s') = 1%nat /\
    map name (contributivity_list s') =
      ["Independant scores raw"; "Independant scores additive"].
Proof. eexists. split; [vm_compute; reflexivity|]. by split. Qed.

Lemma run_scenario_records_witness :
  exists s' new,
    fst (run_scenario (ext := ok) (stub_scenario (experiment !!! 1%nat))
           (initial_world [])) = inr s' /\
    contributivity_list s' = [] ++ new /\
    map name new =
      ["Independant scores raw"; "Independant scores additive";
       "Shapley values"; "TMCS values"].
Proof.
  pose (s := stub_scenario (experiment !!! 1%nat)).
  pose (w := initial_world []).
  pose (s1 := set_federated_test_score s 30).
  pose (out := run_scenario (ext := ok) s w).
  pose (s' := match fst out with inr s' => s' | inl _ => s end).
  destruct (run_scenario_records (ext := ok) s w s1 w s' (snd out))
    as (new & Hlist & Hnames).
  - vm_compute; reflexivity.
  - repeat constructor; unfold recognized; tauto.
  - vm_compute; reflexivity.
  - exists s', new. split; [vm_compute; reflexivity|].
    split; [exact Hlist|exact Hnames].
Defined.

Lemma independent_scores_zero_variance_witness :
  exists raw additive,
    scores_var raw = [0; 0; 0] /\ scores_var additive = [0; 0; 0] /\
    name raw = "Independant scores raw" /\
    name additive = "Independant scores additive".
Proof.
  pose (st := (set_federated_test_score (stub_scenario []) 30,
               @None score_dict)).
  pose (w := initial_world []).
  pose (out := run_method (ext := ok) "Independant scores" st w).
  pose (st' := match fst out with inr st' => st' | inl _ => st end).
  destruct (independent_scores_zero_variance (ext := ok) st w st' (snd out))
    as (raw & additive & Hlist & Hraw & Hadd & Hzero).
  - vm_compute; reflexivity.
  - exists raw, additive.
    assert (Hst' : contributivity_list (fst st') =
                   [record_of 2 ("Independant scores raw",
                                 ([10; 10; 10], [0; 0; 0]));
                    record_of 2 ("Independant scores additive",
                                 ([300 # 30; 300 # 30; 300 # 30], [0; 0; 0]))])
      by (vm_compute; reflexivity).
    rewrite Hst' in Hlist. simpl in Hlist.
    injection Hlist as <- <-. by repeat split.
Defined.

Lemma records_share_rounded_duration_witness :
  exists new,
    Forall (fun c => computation_time c = 2) new /\ length new = 2%nat.
Proof.
  pose (st := (set_federated_test_score (stub_scenario []) 30,
               @None score_dict)).
  pose (w := initial_world []).
  pose (out := run_method (ext := ok) "Independant scores" st w).
  pose (st' := match fst out with inr st' => st' | inl _ => st end).
  destruct (records_share_rounded_duration (ext := ok)
              "Independant scores" st w st' (snd out))
    as (new & Hlist & Htime & _).
  - vm_compute; reflexivity.
  - exists new. split; [exact Htime|].
    apply (f_equal length) in Hlist. rewrite length_app in Hlist.
    assert (Hlen : length (contributivity_list (fst st')) = 2%nat)
      by (vm_compute; reflexivity).
    rewrite Hlen in Hlist. simpl in Hlist. lia.
Defined.

End SimFacts.

(** ** ContributivityRecord: validation at construction *)

Module ContributivityRecordFacts.
Import ContributivityRecord.

(** C7. Construction succeeds, storing its four arguments, exactly when
    the score vector and the variance vector both have as many components
    as there are nodes; in every other case it fails with
    [DimensionMismatch] and yields no record. *)
Theorem new_Contributivity_validates node_count nm scores var time :
  (length scores = node_count /\ length var = node_count /\
   new_Contributivity node_count nm scores var time =
     inr {| name := nm; contributivity_scores := scores;
            scores_var := var; computation_time := time |}) \/
  ((length scores <> node_count \/ length var <> node_count) /\
   new_Contributivity node_count nm scores var time = inl DimensionMismatch).
Proof.
  unfold new_Contributivity.
  destruct (decide (length scores = node_count /\ length var = node_count))
    as [[Hs Hv]|Hno].
  - left. by repeat split.
  - right. split; [|done].
    destruct (decide (length scores = node_count)); [|by left].
    destruct (decide (length var = node_count)); [|by right].
    exfalso. by apply Hno.
Qed.

(** A variance vector one component short is refused. *)
Example new_Contributivity_mismatch :
  new_Contributivity 3 "Shapley values" [10; 10; 10]%Q [0; 0]%Q 2
  = inl DimensionMismatch.
Proof. reflexivity. Qed.

End ContributivityRecordFacts.

(** ** Column assignment on the results dataframe *)

Module CsvFacts.
Import Csv Script.

Lemma column_index_Some c cols k :
  column_index c cols = Some k -> cols !! k = Some c.
Proof.
  revert k. induction cols as [|c' cols IH]; intros k Hk; [done|].
  simpl in Hk. destruct (decide (c' = c)) as [->|Hne].
  - by injection Hk as <-.
  - destruct (column_index c cols) as [k'|]; [|done].
    injection Hk as <-. simpl. by apply IH.
Qed.

Lemma column_index_None c cols : column_index c cols = None -> c ∉ cols.
Proof.
  induction cols as [|c' cols IH]; intros Hk.
  - apply not_elem_of_nil.
  - simpl in Hk. destruct (decide (c' = c)) as [->|Hne]; [done|].
    destruct (column_index c cols) as [k'|]; [done|].
    apply not_elem_of_cons. split; [done|]. by apply IH.
Qed.

Lemma column_index_app c cols c' k :
  column_index c cols = Some k -> column_index c (cols ++ [c']) = Some k.
Proof.
  revert k. induction cols as [|c0 cols IH]; intros k Hk; [done|].
  simpl in *. destruct (decide (c0 = c)); [done|].
  destruct (column_index c cols) as [k'|]; [|done].
  by rewrite (IH k' eq_refl).
Qed.

Lemma column_index_new c cols :
  column_index c cols = None ->
  column_index c (cols ++ [c]) = Some (length cols).
Proof.
  induction cols as [|c0 cols IH]; intros Hk; simpl in *.
  - by rewrite decide_True.
  - destruct (decide (c0 = c)); [done|].
    destruct (column_index c cols) as [k'|]; [done|].
    by rewrite IH.
Qed.

Lemma set_column_rows c v df :
  length (rows (set_column c v df)) = length (rows df).
Proof.
  unfold set_column. destruct (column_index c (columns df)); simpl;
    apply length_map.
Qed.

Lemma set_column_well_formed c v df :
  well_formed df -> well_formed (set_column c v df).
Proof.
  unfold well_formed, set_column. intros Hwf.
  destruct (column_index c (columns df)) as [k|]; simpl.
  - apply Forall_fmap. eapply Forall_impl; [exact Hwf|].
    intros r Hr. simpl. by rewrite length_insert.
  - apply Forall_fmap. eapply Forall_impl; [exact Hwf|].
    intros r Hr. simpl. rewrite !length_app, Hr. done.
Qed.

(** After [df[c] = v] the column [c] exists and holds [v] in every row. *)
Lemma set_column_cells c v df :
  well_formed df ->
  exists k,
    column_index c (columns (set_column c v df)) = Some k /\
    Forall (fun r => r !! k = Some v) (rows (set_column c v df)).
Proof.
  unfold well_formed, set_column. intros Hwf.
  destruct (column_index c (columns df)) as [k|] eqn:Hk; simpl.
  - exists k. split; [done|].
    apply Forall_fmap. eapply Forall_impl; [exact Hwf|].
    intros r Hr. simpl. apply list_lookup_insert_eq.
    rewrite Hr. apply lookup_lt_is_Some. exists c.
    by apply column_index_Some.
  - exists (length (columns df)). split; [by apply column_index_new|].
    apply Forall_fmap. eapply Forall_impl; [exact Hwf|].
    intros r Hr. simpl. rewrite <- Hr.
    rewrite lookup_app_r by done. by rewrite Nat.sub_diag.
Qed.

Lemma set_column_other c v c' k df :
  well_formed df ->
  c' <> c ->
  column_index c' (columns df) = Some k ->
  column_index c' (columns (set_column c v df)) = Some k /\
  Forall2 (fun r r' => r' !! k = r !! k) (rows df) (rows (set_column c v df)).
Proof.
  unfold well_formed, set_column. intros Hwf Hne Hk'.
  destruct (column_index c (columns df)) as [k0|] eqn:Hk; simpl.
  - split; [done|].
    apply Forall2_fmap_r, Forall_Forall2_diag.
    eapply Forall_impl; [exact Hwf|]. intros r _. simpl.
    apply list_lookup_insert_ne. intros ->.
    apply column_index_Some in Hk, Hk'. congruence.
  - split; [by apply column_index_app|].
    apply Forall2_fmap_r, Forall_Forall2_diag.
    eapply Forall_impl; [exact Hwf|]. intros r Hr. simpl.
    apply lookup_app_l. rewrite Hr.
    apply lookup_lt_is_Some. exists c'. by apply column_index_Some.
Qed.

(** X16. Assigning a column keeps every other column where it was, and every
    row keeps the cell it had in that column. *)
Theorem set_column_keeps_other_columns c v c' k df :
  well_formed df ->
  c' <> c ->
  column_index c' (columns df) = Some k ->
  column_index c' (columns (set_column c v df)) = Some k /\
  forall j r,
    rows df !! j = Some r ->
    exists r', rows (set_column c v df) !! j = Some r' /\ r' !! k = r !! k.
Proof.
  intros Hwf Hne Hk.
  destruct (set_column_other c v c' k df Hwf Hne Hk) as [Hidx Hsame].
  split; [exact Hidx|].
  intros j r Hr.
  destruct (Forall2_lookup_l _ _ _ _ _ Hsame Hr) as (r' & Hr' & Heq).
  by exists r'.
Qed.

(** X17. An assignment to an existing column overwrites it; column names are
    never duplicated and no row is added or lost. *)
Theorem set_column_never_duplicates c v df :
  NoDup (columns df) ->
  NoDup (columns (set_column c v df)) /\
  (c ∈ columns df -> columns (set_column c v df) = columns df) /\
  (c ∉ columns df -> columns (set_column c v df) = columns df ++ [c]) /\
  length (rows (set_column c v df)) = length (rows df).
Proof.
  intros Hnd. split; [|split; [|split]]; [| | |apply set_column_rows].
  - unfold set_column.
    destruct (column_index c (columns df)) as [k|] eqn:Hk; simpl; [done|].
    apply NoDup_app. split; [done|]. split; [|apply NoDup_singleton].
    intros x Hx ->%list_elem_of_singleton.
    by apply column_index_None in Hk.
  - intros Hin. unfold set_column.
    destruct (column_index c (columns df)) as [k|] eqn:Hk; [done|].
    by apply column_index_None in Hk.
  - intros Hout. unfold set_column.
    destruct (column_index c (columns df)) as [k|] eqn:Hk; [|done].
    exfalso. apply Hout. apply column_index_Some in Hk.
    by eapply list_elem_of_lookup_2.
Qed.

(** X18. The two assignments of [main], [df["random_state"] = i] then
    [df["scenario_id"] = scenario_id], in general form: afterwards both
    columns exist and every row holds the two assigned values. *)
Theorem two_assignments_fill_every_row a va b vb df :
  well_formed df ->
  a <> b ->
  let df' := set_column b vb (set_column a va df) in
  well_formed df' /\
  length (rows df') = length (rows df) /\
  exists ka kb,
    column_index a (columns df') = Some ka /\
    column_index b (columns df') = Some kb /\
    Forall (fun r => r !! ka = Some va /\ r !! kb = Some vb) (rows df').
Proof.
  intros Hwf Hab df'.
  pose proof (set_column_well_formed a va df Hwf) as Hwf1.
  destruct (set_column_cells a va df Hwf) as (ka & Hka & Hcells_a).
  destruct (set_column_cells b vb _ Hwf1) as (kb & Hkb & Hcells_b).
  destruct (set_column_other b vb a ka _ Hwf1 Hab Hka) as [Hka' Hsame].
  split; [by apply set_column_well_formed|].
  split; [unfold df'; by rewrite !set_column_rows|].
  exists ka, kb. split; [exact Hka'|]. split; [exact Hkb|].
  fold df' in Hcells_b, Hsame.
  apply Forall_lookup. intros j r' Hr'.
  split; [|by eapply (proj1 (Forall_lookup _ _) Hcells_b)].
  destruct (Forall2_lookup_r _ _ _ _ _ Hsame Hr') as (r & Hr & Heq).
  rewrite Heq. by eapply (proj1 (Forall_lookup _ _) Hcells_a).
Qed.

(** A cell holding a comma is written between quotes, a quote inside a
    quoted cell is doubled, other cells are written as they are. *)
Example to_csv_quotes_cells :
  to_csv false {| columns := ["scores"; "method"; "random_state"];
                  rows := [["[0.4, 0.6]"; "Shapley values"; "0"]] |}
  = [String quotechar
       ("[0.4, 0.6]" +:+ String quotechar ",Shapley values,0")] /\
  csv_field (String quotechar "x")
  = String quotechar (String quotechar (String quotechar
      ("x" +:+ String quotechar EmptyString))).
Proof. split; reflexivity. Qed.

(** A dataframe of two results, as [to_dataframe] would give it. *)
Lemma set_column_keeps_other_columns_witness :
  column_index "method"
    (columns (set_column "random_state" "0"
                {| columns := ["method"; "score"];
                   rows := [["Shapley values"; "10"]; ["TMCS values"; "5"]] |}))
  = Some 0.
Proof.
  apply (set_column_keeps_other_columns "random_state" "0" "method" 0).
  - repeat constructor.
  - discriminate.
  - reflexivity.
Defined.

Lemma set_column_never_duplicates_witness :
  NoDup (columns (set_column "score" "0"
                    {| columns := ["method"; "score"];
                       rows := [["Shapley values"; "10"]] |})).
Proof.
  apply set_column_never_duplicates. simpl.
  apply NoDup_cons. split; [|apply NoDup_singleton].
  intros Hin%list_elem_of_singleton. discriminate.
Defined.

Lemma two_assignments_fill_every_row_witness :
  well_formed (set_column "scenario_id" "1"
                 (set_column "random_state" "0"
                    {| columns := ["method"];
                       rows := [["Shapley values"]; ["TMCS values"]] |})).
Proof.
  apply (two_assignments_fill_every_row "random_state" "0" "scenario_id" "1").
  - repeat constructor.
  - discriminate.
Defined.

End CsvFacts.

(** ** Rounding of durations *)

Module RoundFacts.
Import Num NumFacts.
Local Open Scope Q_scope.

Lemma Qfloor_nonneg (x : Q) : 0 <= x -> (0 <= Qfloor x)%Z.
Proof. intros Hx. apply Qfloor_resp_le in Hx. exact Hx. Qed.

(** A non-negative duration never rounds to a negative number. *)
Lemma np_round_nonneg (x : Q) : 0 <= x -> (0 <= np_round x)%Z.
Proof.
  intros Hx. pose proof (Qfloor_nonneg x Hx) as Hf. unfold np_round.
  destruct (Qcompare _ _); [destruct (Z.even _)| |]; lia.
Qed.

(** Durations of at most one half round to zero. *)
Lemma np_round_small (x : Q) : 0 <= x -> x <= 1 # 2 -> np_round x = 0%Z.
Proof.
  intros H0 H1.
  assert (Hf : Qfloor x = 0%Z).
  { pose proof (Qfloor_nonneg x H0) as Hlo.
    pose proof H1 as Hhi. apply Qfloor_resp_le in Hhi.
    change (Qfloor (1 # 2)) with 0%Z in Hhi. lia. }
  unfold np_round. rewrite Hf.
  destruct (Qcompare (x - inject_Z 0) (1 # 2)) eqn:Hc; [done|done|].
  apply Qgt_alt in Hc. change (inject_Z 0) with 0 in Hc. lra.
Qed.

(** Rounding to an integer never passes an integer bound. *)
Lemma np_round_le_int (y : Q) (K : Z) : y <= inject_Z K -> (np_round y <= K)%Z.
Proof.
  intros Hy.
  assert (Hf : (Qfloor y <= K)%Z).
  { apply Qfloor_resp_le in Hy. by rewrite Qfloor_Z in Hy. }
  destruct (Qfloor_frac y) as [Hlo Hhi].
  unfold np_round.
  destruct (Z.eq_dec (Qfloor y) K) as [Heq|Hne].
  - assert (Hzero : y - inject_Z (Qfloor y) <= 0) by (rewrite Heq; lra).
    destruct (Qcompare _ _) eqn:Hc.
    + apply Qeq_alt in Hc. lra.
    + lia.
    + apply Qgt_alt in Hc. lra.
  - destruct (Qcompare _ _); [destruct (Z.even _)| |]; lia.
Qed.

Lemma pow2_pos (q : Z) : 0 < pow2 q.
Proof.
  destruct q as [|p|p]; simpl; [done| |done].
  change 0 with (inject_Z 0). rewrite <- Zlt_Qlt.
  apply Z.pow_pos_nonneg; lia.
Qed.

(** The double nearest to a non-negative number is not negative. *)
Lemma round_double_nonneg (x : Q) : 0 <= x -> 0 <= round_double x.
Proof.
  intros Hx. unfold round_double.
  destruct (Qeq_bool x 0); [lra|].
  assert (Hsign : Qle_bool 0 x = true) by by apply Qle_bool_iff.
  rewrite Hsign.
  set (q := Z.max _ _).
  pose proof (pow2_pos q) as Hq.
  assert (Ha : 0 <= Qabs x / pow2 q).
  { apply Qle_shift_div_l; [done|]. pose proof (Qabs_nonneg x). lra. }
  apply np_round_nonneg in Ha. rewrite Zle_Qle in Ha.
  change (inject_Z 0) with 0 in Ha.
  assert (0 <= inject_Z (np_round (Qabs x / pow2 q)) * pow2 q).
  { apply Qmult_le_0_compat; [done|lra]. }
  lra.
Qed.

(** One half is a double: no number below it rounds above it. *)
Lemma round_double_le_half (x : Q) :
  0 <= x -> x <= 1 # 2 -> round_double x <= 1 # 2.
Proof.
  intros H0 Hhalf. unfold round_double.
  destruct (Qeq_bool x 0) eqn:Hzero; [lra|].
  assert (Hsign : Qle_bool 0 x = true) by by apply Qle_bool_iff.
  rewrite Hsign.
  assert (Hpos : 0 < x).
  { apply Qeq_bool_neq in Hzero. lra. }
  set (e0 := (Z.log2 (Qnum (Qabs x)) - Z.log2 (Zpos (Qden (Qabs x))))%Z).
  assert (He0 : (e0 <= -1)%Z).
  { unfold e0. destruct x as [n d].
    unfold Qlt in Hpos. unfold Qle in Hhalf. simpl in Hpos, Hhalf.
    cbn [Qabs Qnum Qden]. rewrite Z.abs_eq by lia.
    assert (Hlog : (Z.log2 (2 * n) <= Z.log2 (Zpos d))%Z)
      by (apply Z.log2_le_mono; lia).
    rewrite Z.log2_double in Hlog by lia.
    generalize dependent (Z.log2 (Zpos d)). generalize (Z.log2 n).
    intros. lia. }
  set (E := if Qle_bool (pow2 e0) (Qabs x) then e0 else (e0 - 1)%Z).
  assert (HE : (E <= -1)%Z)
    by (unfold E; destruct (Qle_bool (pow2 e0) _); lia).
  set (q := Z.max (E - 52) (-1074)).
  assert (Hq : (q <= -53)%Z) by (unfold q; lia).
  clearbody q. clear E HE e0 He0.
  destruct q as [|p|p]; [lia|lia|]. simpl pow2.
  set (K := (2 ^ (Zpos p - 1))%Z).
  assert (HK : Zpos (2 ^ p) = (2 * K)%Z).
  { rewrite Pos2Z.inj_pow. unfold K.
    rewrite <- Z.pow_succ_r by lia. f_equal. lia. }
  assert (Hunit : inject_Z K * (1 # 2 ^ p) == 1 # 2).
  { unfold Qeq, Qmult, inject_Z. cbn [Qnum Qden].
    rewrite Pos.mul_1_l, HK. lia. }
  assert (Hscaled : Qabs x / (1 # 2 ^ p) <= inject_Z K).
  { apply Qle_shift_div_r; [done|]. rewrite Hunit, Qabs_pos; lra. }
  apply np_round_le_int in Hscaled. rewrite Zle_Qle in Hscaled.
  assert (Hprod : inject_Z (np_round (Qabs x / (1 # 2 ^ p))) * (1 # 2 ^ p)
                  <= inject_Z K * (1 # 2 ^ p)).
  { apply Qmult_le_compat_r; [exact Hscaled|done]. }
  lra.
Qed.

(** The subtraction rounds before [np.round] does.  The exact difference
    of the two doubles nearest to 0.291271 and 0.7912710000000001 is just
    above one half; as a double it is one half, which [np.round] takes to
    0, whereas the exact difference would go to 1. *)
Example float_sub_rounds_first :
  let start := 5247071868255327 # 18014398509481984 in
  let end_ := 445445972593635 # 562949953421312 in
  float_sub end_ start == 1 # 2 /\
  np_round (float_sub end_ start) = 0%Z /\
  np_round (end_ - start) = 1%Z.
Proof. vm_compute. by repeat split. Qed.

(** Doubles are left as they are; other numbers move to the nearest
    double. *)
Example round_double_values :
  round_double (5 # 2) == 5 # 2 /\
  round_double (1 # 10) == 3602879701896397 # 36028797018963968 /\
  round_double (- (1 # 3)) == - (6004799503160661 # 18014398509481984).
Proof. vm_compute. by repeat split. Qed.

End RoundFacts.

(** ** simulation_run.py: what a run does to the world and the scenario *)

Module ScriptFacts.
Import Num NumFacts RoundFacts Err ContributivityRecord Csv Sim SimFacts Script.
Local Open Scope Q_scope.

Section Run.
Context {Node Data Params : Type} {ext : Externals Node Data Params}.

(** The world after the [if/elif] chain, whether the estimator returned or
    raised: the call is logged, nothing else has changed. *)
Lemma compute_scores_world method s sd w :
  snd (compute_scores method s sd w) =
    {| ticks := ticks w; calls := calls w ++ call_of_method method;
       results_csv := results_csv w; csv_headers := csv_headers w |}.
Proof.
  unfold compute_scores, call_of_method.
  repeat case_decide; unfold bind, call_count, log_call, lift, ret; simpl.
  - by destruct (compute_SV _ _ _ _ _ _ _ _).
  - by destruct (compute_independent_scores _ _ _ _ _ _ _).
  - by destruct (truncated_MC _ _ _ _ _).
  - rewrite app_nil_r. by destruct w.
Qed.

(** Building and appending records does not act on the world. *)
Lemma append_records_world elapsed d s w :
  snd (append_records elapsed d s w) = w.
Proof.
  unfold append_records. revert s w.
  induction d as [|entry d IH]; intros s w; simpl; [done|].
  unfold bind at 1. unfold bind at 1. unfold lift at 1.
  destruct (Contributivity_init _ _ _ _) as [e|c]; simpl; [done|].
  apply IH.
Qed.

(** The scenario after the records of a [score_dict] were appended. *)
Lemma append_records_scenario elapsed d s w s' w' :
  append_records elapsed d s w = (inr s', w') ->
  s' = set_contributivity_list s
         (contributivity_list s ++ map (record_of elapsed) d).
Proof.
  unfold append_records. revert s w.
  induction d as [|entry d IH]; intros s w Hrun; simpl in Hrun.
  - injection Hrun as <- _. rewrite app_nil_r. by destruct s.
  - apply bind_inr in Hrun as (s1 & w1 & Hstep & Hrest).
    apply bind_inr in Hstep as (c & w2 & Hinit & Hret).
    apply lift_inr in Hinit as [Hinit ->].
    injection Hret as <- <-.
    apply Contributivity_init_fields in Hinit.
    rewrite (IH _ _ Hrest). simpl.
    rewrite <- app_assoc. simpl. by rewrite Hinit.
Qed.

(** A returning loop body, in full: the world and the scenario it leaves. *)
Lemma run_method_returns method st w st' w' :
  run_method method st w = (inr st', w') ->
  let elapsed :=
    inject_Z (np_round (float_sub (timer_at (S (ticks w)))
                              (timer_at (ticks w)))) in
  exists d,
    fst (compute_scores method (fst st) (snd st) (snd (timer w)))
      = inr (Some d) /\
    st' = (set_contributivity_list (fst st)
             (contributivity_list (fst st) ++ map (record_of elapsed) d),
           Some d) /\
    w' = {| ticks := S (S (ticks w));
            calls := calls w ++ call_of_method method;
            results_csv := results_csv w; csv_headers := csv_headers w |}.
Proof.
  intros Hrun elapsed. unfold run_method in Hrun.
  apply bind_inr in Hrun as (start & w0 & Hstart & Hrun).
  injection Hstart as <- <-.
  apply bind_inr in Hrun as (sd & w1 & Hsd & Hrun).
  apply bind_inr in Hrun as (end_ & w2 & Hend & Hrun).
  injection Hend as <- <-.
  destruct sd as [d|]; [|done].
  apply bind_inr in Hrun as (s' & w3 & Happ & Hret).
  injection Hret as <- <-.
  match type of Happ with
  | append_records ?el _ _ ?w0 = _ =>
      pose proof (append_records_world el d (fst st) w0) as Hw3
  end.
  rewrite Happ in Hw3. simpl in Hw3. subst w3.
  apply append_records_scenario in Happ.
  match type of Hsd with
  | compute_scores _ _ _ ?w0 = _ =>
      pose proof (compute_scores_world method (fst st) (snd st) w0) as Hw1
  end.
  rewrite Hsd in Hw1. simpl in Hw1. subst w1. simpl in *.
  exists d. split; [by rewrite Hsd|]. split; [|done].
  by rewrite Happ.
Qed.

(** The whole method loop when it returns. *)
Lemma run_methods_returns ms st w st' w' :
  for_each ms run_method st w = (inr st', w') ->
  (exists new,
     fst st' = set_contributivity_list (fst st)
                 (contributivity_list (fst st) ++ new)) /\
  w' = {| ticks := ticks w + 2 * length ms;
          calls := calls w ++ (ms ≫= call_of_method);
          results_csv := results_csv w; csv_headers := csv_headers w |}.
Proof.
  revert st w. induction ms as [|m ms IH]; intros st w Hrun; simpl in Hrun.
  - injection Hrun as <- <-. split.
    + exists []. rewrite app_nil_r. by destruct (fst st).
    + destruct w; simpl. f_equal; [lia|by rewrite app_nil_r].
  - apply bind_inr in Hrun as (st1 & w1 & Hstep & Hrest).
    apply run_method_returns in Hstep as (d & _ & -> & ->).
    apply IH in Hrest as [(new & Hnew) ->]. simpl in *. split.
    + eexists. rewrite Hnew. by rewrite <- app_assoc.
    + f_equal; [lia|by rewrite <- app_assoc].
Qed.

(** Preparation only calls into the scenario and the training module. *)
Lemma prepare_world s w : snd (prepare s w) = w.
Proof.
  unfold prepare, bind, lift, ret.
  destruct (split_data s) as [e|s0]; [done|].
  destruct (plot_data_distribution s0) as [e|u]; [done|].
  destruct (preprocess_scenarios_data s0) as [e|s2]; [done|].
  by destruct (compute_test_score_with_scenario s2 true).
Qed.

(** A returning [run_scenario], decomposed. *)
Lemma run_scenario_inr s w s' w' :
  run_scenario s w = (inr s', w') ->
  exists s1 st,
    prepare s w = (inr s1, w) /\
    for_each (methods s1) run_method (s1, None) w = (inr st, w') /\
    s' = fst st.
Proof.
  unfold run_scenario. intros Hrun.
  apply bind_inr in Hrun as (s1 & w1 & Hprep & Hrun).
  apply bind_inr in Hrun as (st & w2 & Hloop & Hrun).
  apply bind_inr in Hrun as (u & w3 & Hfile & Hret).
  apply lift_inr in Hfile as [_ ->]. injection Hret as <- <-.
  pose proof (prepare_world s w) as Hw. rewrite Hprep in Hw.
  simpl in Hw. subst w1. by exists s1, st.
Qed.

(** X1. A scenario run that returns has read the clock exactly twice per
    method of the scenario, whatever the method names are. *)
Theorem run_scenario_reads_clock_twice_per_method s w s' w' :
  run_scenario s w = (inr s', w') ->
  ticks w' = (ticks w + 2 * length (methods s'))%nat.
Proof.
  intros Hrun.
  apply run_scenario_inr in Hrun as (s1 & st & _ & Hloop & ->).
  apply run_methods_returns in Hloop as [(new & ->) ->]. reflexivity.
Qed.

(** X2. A scenario run that returns has called the estimators in the order
    of the scenario's method list, once per recognised method name and not
    at all for any other name. *)
Theorem run_scenario_calls_follow_methods s w s' w' :
  run_scenario s w = (inr s', w') ->
  calls w' = calls w ++ (methods s' ≫= call_of_method).
Proof.
  intros Hrun.
  apply run_scenario_inr in Hrun as (s1 & st & _ & Hloop & ->).
  apply run_methods_returns in Hloop as [(new & ->) ->]. reflexivity.
Qed.

Lemma compute_scores_unrecognized method s sd :
  ~ recognized method -> compute_scores method s sd = ret sd.
Proof.
  intros Hno. unfold compute_scores, recognized in *.
  repeat case_decide; tauto.
Qed.

Lemma call_of_method_unrecognized method :
  ~ recognized method -> call_of_method method = [].
Proof.
  intros Hno. unfold call_of_method, recognized in *.
  repeat case_decide; tauto.
Qed.

(** X4. If the first method of the scenario is none of the three names
    the script knows, the run stops with Python's UnboundLocalError on
    [score_dict]: the clock has been read twice, no estimator has been
    called and results.csv is as before. *)
Theorem unknown_first_method_is_unbound s w s1 method rest :
  prepare s w = (inr s1, w) ->
  methods s1 = method :: rest ->
  ~ recognized method ->
  run_scenario s w =
    (inl (UnboundLocalError "score_dict"),
     {| ticks := S (S (ticks w)); calls := calls w;
        results_csv := results_csv w; csv_headers := csv_headers w |}).
Proof.
  intros Hprep Hmethods Hno. unfold run_scenario.
  rewrite (bind_returns _ _ _ _ _ Hprep), Hmethods.
  apply bind_raises. simpl. apply bind_raises.
  unfold run_method. rewrite (compute_scores_unrecognized _ _ _ Hno).
  reflexivity.
Qed.

(** X5. A method name the script does not know, met after some method has
    run, raises nothing: the loop body calls no estimator and appends once
    more the records of the score dictionary left by the earlier method,
    stamped with the new duration. *)
Theorem unknown_method_repeats_last_records method s d w st' w' :
  ~ recognized method ->
  run_method method (s, Some d) w = (inr st', w') ->
  let elapsed :=
    inject_Z (np_round (float_sub (timer_at (S (ticks w)))
                              (timer_at (ticks w)))) in
  st' = (set_contributivity_list s
           (contributivity_list s ++ map (record_of elapsed) d), Some d) /\
  calls w' = calls w.
Proof.
  intros Hno Hrun elapsed.
  apply run_method_returns in Hrun as (d' & Hd' & -> & ->). simpl in *.
  rewrite (compute_scores_unrecognized _ _ _ Hno) in Hd'.
  injection Hd' as <-.
  rewrite (call_of_method_unrecognized _ Hno), app_nil_r. done.
Qed.

(** X6. A failure while splitting, plotting, preprocessing or computing
    the federated test score ends the run before the first method: the
    exception leaves [run_scenario] and the world is exactly as it was (no
    clock reading, no estimator call). *)
Theorem preparation_failure_precedes_methods s w e w1 :
  prepare s w = (inl e, w1) ->
  w1 = w /\ run_scenario s w = (inl e, w).
Proof.
  intros Hprep.
  pose proof (prepare_world s w) as Hw. rewrite Hprep in Hw. simpl in Hw.
  subst w1. split; [done|]. unfold run_scenario. by apply bind_raises.
Qed.

(** X7. When the clock does not go backwards between the two readings of
    a method, every record of the method carries a non-negative elapsed
    time; when the two readings are at most half a unit apart, that time
    is 0. *)
Theorem elapsed_time_is_nonnegative method st w st' w' :
  run_method method st w = (inr st', w') ->
  timer_at (ticks w) <= timer_at (S (ticks w)) ->
  exists new,
    contributivity_list (fst st') = contributivity_list (fst st) ++ new /\
    Forall (fun c => 0 <= computation_time c) new /\
    (timer_at (S (ticks w)) - timer_at (ticks w) <= 1 # 2 ->
     Forall (fun c => computation_time c = 0) new).
Proof.
  intros Hrun Hclock.
  apply run_method_returns in Hrun as (d & _ & -> & _). simpl.
  eexists. split; [reflexivity|]. split.
  - apply Forall_fmap, Forall_true. intros entry. simpl.
    change 0 with (inject_Z 0). rewrite <- Zle_Qle.
    apply np_round_nonneg, round_double_nonneg. lra.
  - intros Hshort. apply Forall_fmap, Forall_true. intros entry. simpl.
    unfold float_sub. rewrite np_round_small; [done| |].
    + apply round_double_nonneg. lra.
    + apply round_double_le_half; [lra|done].
Qed.

(** X8. The record of "Shapley values" holds, unchanged, the two vectors
    returned by [compute_SV] on the scenario's nodes, epoch count,
    validation and test data and aggregation weighting. *)
Theorem shapley_record_holds_estimator_output st w st' w' :
  run_method "Shapley values" st w = (inr st', w') ->
  exists scores var,
    compute_SV (length (calls w)) (node_list (fst st)) (epoch_count (fst st))
      (x_val (fst st)) (y_val (fst st)) (x_test (fst st)) (y_test (fst st))
      (aggregation_weighting (fst st)) = inr (scores, var) /\
    contributivity_list (fst st') =
      contributivity_list (fst st)
      ++ [{| name := "Shapley values"; contributivity_scores := scores;
             scores_var := var;
             computation_time :=
               inject_Z (np_round (float_sub (timer_at (S (ticks w)))
                              (timer_at (ticks w)))) |}].
Proof.
  intros Hrun.
  apply run_method_returns in Hrun as (d & Hd & -> & _). simpl.
  unfold compute_scores in Hd. rewrite decide_True in Hd by done.
  unfold bind, call_count, log_call, lift, ret in Hd. simpl in Hd.
  destruct (compute_SV _ _ _ _ _ _ _ _) as [e|[scores var]]; [done|].
  injection Hd as <-. by exists scores, var.
Qed.

(** X9. The two records of "Independant scores" hold the two vectors
    returned by [compute_independent_scores], which is given, among its
    arguments, the federated test score stored on the scenario. *)
Theorem independent_records_hold_estimator_output st w st' w' :
  run_method "Independant scores" st w = (inr st', w') ->
  let elapsed :=
    inject_Z (np_round (float_sub (timer_at (S (ticks w)))
                              (timer_at (ticks w)))) in
  exists raw additive,
    compute_independent_scores (length (calls w)) (node_list (fst st))
      (epoch_count (fst st)) (federated_test_score (fst st))
      (single_partner_test_mode (fst st)) (x_test (fst st)) (y_test (fst st))
      = inr (raw, additive) /\
    contributivity_list (fst st') =
      contributivity_list (fst st)
      ++ [{| name := "Independant scores raw";
             contributivity_scores := raw;
             scores_var := repeat 0 (length raw);
             computation_time := elapsed |};
          {| name := "Independant scores additive";
             contributivity_scores := additive;
             scores_var := repeat 0 (length additive);
             computation_time := elapsed |}].
Proof.
  intros Hrun elapsed.
  apply run_method_returns in Hrun as (d & Hd & -> & _). simpl.
  unfold compute_scores in Hd.
  rewrite decide_False in Hd by discriminate.
  rewrite decide_True in Hd by done.
  unfold bind, call_count, log_call, lift, ret in Hd. simpl in Hd.
  destruct (compute_independent_scores _ _ _ _ _ _ _) as [e|[raw additive]];
    [done|].
  injection Hd as <-. by exists raw, additive.
Qed.

(** X10. The record of "TMCS values" holds the entry ["sv"] of the
    result of [truncated_MC] as its scores and the entry ["std_sv"], a
    vector of standard deviations, in its variance field. *)
Theorem tmcs_record_holds_sv_and_std_sv st w st' w' :
  run_method "TMCS values" st w = (inr st', w') ->
  exists tmcs,
    truncated_MC (length (calls w)) (fst st) (1 # 100) (9 # 10) (5 # 100)
      = inr tmcs /\
    contributivity_list (fst st') =
      contributivity_list (fst st)
      ++ [{| name := "TMCS values"; contributivity_scores := tmcs_sv tmcs;
             scores_var := tmcs_std_sv tmcs;
             computation_time :=
               inject_Z (np_round (float_sub (timer_at (S (ticks w)))
                              (timer_at (ticks w)))) |}].
Proof.
  intros Hrun.
  apply run_method_returns in Hrun as (d & Hd & -> & _). simpl.
  unfold compute_scores in Hd.
  rewrite decide_False in Hd by discriminate.
  rewrite decide_False in Hd by discriminate.
  rewrite decide_True in Hd by done.
  unfold bind, call_count, log_call, lift, ret in Hd. simpl in Hd.
  destruct (truncated_MC _ _ _ _ _) as [e|tmcs]; [done|].
  injection Hd as <-. by exists tmcs.
Qed.

(** *** The loops of main *)

Lemma main_jobs_lookup_from (ps : list Params) (f : nat -> list (nat * (nat * Params)))
    n a i j p :
  (forall i, f i = (fun q => (i, q)) <$> imap (fun id q => (id, q)) ps) ->
  (i < n)%nat -> ps !! j = Some p ->
  (seq a n ≫= f) !! (i * length ps + j)%nat = Some ((a + i)%nat, (j, p)).
Proof.
  intros Hf. revert a i. induction n as [|n IH]; intros a i Hi Hj; [lia|].
  assert (Hlen : length (f a) = length ps).
  { by rewrite Hf, length_fmap, length_imap. }
  simpl. destruct i as [|i]; simpl.
  - rewrite lookup_app_l by (rewrite Hlen; by eapply lookup_lt_Some).
    rewrite Hf, list_lookup_fmap, list_lookup_imap, Hj. simpl.
    by rewrite Nat.add_0_r.
  - rewrite lookup_app_r by (rewrite Hlen; lia).
    replace (length ps + i * length ps + j - length (f a))%nat
      with (i * length ps + j)%nat by lia.
    rewrite IH by (done || lia). f_equal. f_equal. lia.
Qed.

Lemma length_main_jobs n (ps : list Params) :
  length (main_jobs n ps) = (n * length ps)%nat.
Proof.
  unfold main_jobs. generalize 0%nat.
  induction n as [|n IH]; intros a; simpl; [done|].
  rewrite length_app, IH, length_fmap, length_imap. done.
Qed.

(** X11. The iterations of main come repeat by repeat and, within a
    repeat, in the order of the scenario list; the scenario identifier is
    the position of the scenario in that list.  There are
    [n_repeats * len(scenario_params_list)] of them. *)
Theorem main_jobs_order n_repeats (scenario_params_list : list Params) :
  length (main_jobs n_repeats scenario_params_list)
    = (n_repeats * length scenario_params_list)%nat /\
  forall i scenario_id scenario_params,
    (i < n_repeats)%nat ->
    scenario_params_list !! scenario_id = Some scenario_params ->
    main_jobs n_repeats scenario_params_list
      !! (i * length scenario_params_list + scenario_id)%nat
    = Some (i, (scenario_id, scenario_params)).
Proof.
  split; [apply length_main_jobs|].
  intros i scenario_id scenario_params Hi Hp. unfold main_jobs.
  by rewrite (main_jobs_lookup_from scenario_params_list _ n_repeats 0 i
                scenario_id scenario_params).
Qed.

(** A returning iteration of main, decomposed. *)
Lemma main_iteration_inr job w u w' :
  main_iteration job tt w = (inr u, w') ->
  exists s s' w1 df,
    Scenario_init (snd (snd job)) = inr s /\
    run_scenario s w = (inr s', w1) /\
    to_dataframe (object_after_run s s') = inr df /\
    w' = snd (append_results
                (set_column "scenario_id" (pretty (fst (snd job)))
                   (set_column "random_state" (pretty (fst job)) df)) w1).
Proof.
  unfold main_iteration. intros Hrun.
  apply bind_inr in Hrun as (u0 & w0 & Hamounts & Hrun).
  apply lift_inr in Hamounts as [_ ->].
  apply bind_inr in Hrun as (s & w0 & Hinit & Hrun).
  apply lift_inr in Hinit as [Hinit ->].
  apply bind_inr in Hrun as (df0 & w0 & Hdf0 & Hrun).
  apply lift_inr in Hdf0 as [_ ->].
  apply bind_inr in Hrun as (s' & w1 & Hscenario & Hrun).
  apply bind_inr in Hrun as (df & w2 & Hdf & Hrun).
  apply lift_inr in Hdf as [Hdf ->].
  exists s, s', w1, df. repeat split; try done.
  by rewrite Hrun.
Qed.

(** X12. An iteration of main that returns has appended to results.csv
    the dataframe of the scenario object main created, in the state the
    run left it, with the columns [random_state] and [scenario_id]
    assigned: first the header record if the file was empty, then one
    record per row, fields quoted where the csv dialect requires it.  When
    [run_scenario] has worked on another object than the one it was given,
    the dataframe is not that of the object holding the new records.
    Nothing else of the file has changed. *)
Theorem main_iteration_appends_dataframe i scenario_id scenario_params w u w' :
  main_iteration (i, (scenario_id, scenario_params)) tt w = (inr u, w') ->
  exists s s' df,
    Scenario_init scenario_params = inr s /\
    fst (run_scenario s w) = inr s' /\
    to_dataframe (object_after_run s s') = inr df /\
    let df' := set_column "scenario_id" (pretty scenario_id)
                 (set_column "random_state" (pretty i) df) in
    results_csv w' =
      results_csv w
      ++ (if decide (results_csv w = [])
          then [csv_record (columns df')] else [])
      ++ map csv_record (rows df').
Proof.
  intros Hrun.
  apply main_iteration_inr in Hrun as (s & s' & w1 & df & Hs & Hsc & Hdf & ->).
  exists s, s', df. split; [done|]. split; [by rewrite Hsc|]. split; [done|].
  pose proof (run_scenario_csv s w) as [Hfile _]. rewrite Hsc in Hfile.
  simpl in *. rewrite tell_eqb, Hfile. unfold to_csv.
  destruct (decide (results_csv w = [])) as [Hempty|Hlines].
  - by rewrite bool_decide_eq_true_2.
  - by rewrite bool_decide_eq_false_2.
Qed.

Lemma main_loop_count jobs w u w' :
  for_each jobs main_iteration tt w = (inr u, w') ->
  length (csv_headers w') = (length (csv_headers w) + length jobs)%nat.
Proof.
  revert w. induction jobs as [|job jobs IH]; intros w Hrun; simpl in Hrun.
  - injection Hrun as _ <-. simpl. lia.
  - apply bind_inr in Hrun as ([] & w1 & Hstep & Hrest).
    apply IH in Hrest. rewrite Hrest.
    apply main_iteration_inr in Hstep
      as (s & s' & w2 & df & _ & Hsc & _ & ->).
    pose proof (run_scenario_csv s w) as [_ Hflags]. rewrite Hsc in Hflags.
    simpl in *. rewrite length_app, Hflags. simpl. lia.
Qed.

(** X13. When main returns, it returns 0 and has appended to results.csv
    exactly once per repeat and scenario:
    [n_repeats * len(scenario_params_list)] times. *)
Theorem main_returns_zero_after_all_runs n_repeats scenario_params_list w z w' :
  main n_repeats scenario_params_list w = (inr z, w') ->
  z = 0%Z /\
  length (csv_headers w') =
    (length (csv_headers w) + n_repeats * length scenario_params_list)%nat.
Proof.
  unfold main. intros Hrun.
  apply bind_inr in Hrun as (u & w1 & Hloop & Hret).
  injection Hret as <- <-. split; [done|].
  by rewrite (main_loop_count _ _ _ _ Hloop), length_main_jobs.
Qed.

(** *** What main does to results.csv *)

#[local] Instance csv_appended_preorder : PreOrder csv_appended.
Proof.
  split.
  - intros w. exists []. by rewrite app_nil_r.
  - intros w1 w2 w3 [k1 H1] [k2 H2]. exists (k1 ++ k2).
    by rewrite H2, H1, app_assoc.
Qed.

#[local] Instance nonempty_kept_preorder : PreOrder nonempty_kept.
Proof.
  split.
  - intros w H. exact H.
  - intros w1 w2 w3 H1 H2 H. by apply H2, H1.
Qed.

Lemma csv_untouched_appended w w' : csv_untouched w w' -> csv_appended w w'.
Proof. intros [Hfile _]. exists []. by rewrite Hfile, app_nil_r. Qed.

Lemma csv_untouched_nonempty w w' : csv_untouched w w' -> nonempty_kept w w'.
Proof.
  intros [Hfile Hflags]. unfold nonempty_kept, appended_nonempty.
  by rewrite Hfile, Hflags.
Qed.

Lemma append_results_appended df : respects csv_appended (append_results df).
Proof. intros w. by eexists. Qed.

Lemma append_results_nonempty df : respects nonempty_kept (append_results df).
Proof.
  intros w _. right. simpl. rewrite tell_eqb.
  destruct (results_csv w) as [|line file]; simpl; discriminate.
Qed.

(** Splits a computation of main into its steps: clock readings, estimator
    dispatch and the append. *)
Ltac main_steps :=
  repeat first
    [ apply respects_ret; tc_solve
    | apply respects_raise; tc_solve
    | apply respects_lift; tc_solve
    | apply respects_bind; [tc_solve| |intros ?]
    | apply respects_for_each; [tc_solve|intros ? ?]
    | match goal with
      | |- respects _ (match ?x with _ => _ end) => destruct x
      end ].

Lemma main_appended n_repeats scenario_params_list :
  respects csv_appended (main n_repeats scenario_params_list).
Proof.
  unfold main, main_iteration.
  main_steps;
    first [ apply append_results_appended
          | apply (respects_weaken csv_untouched);
            [ apply csv_untouched_appended
            | first [apply respects_timer_csv | apply compute_scores_csv] ] ].
Qed.

Lemma main_nonempty n_repeats scenario_params_list :
  respects nonempty_kept (main n_repeats scenario_params_list).
Proof.
  unfold main, main_iteration.
  main_steps;
    first [ apply append_results_nonempty
          | apply (respects_weaken csv_untouched);
            [ apply csv_untouched_nonempty
            | first [apply respects_timer_csv | apply compute_scores_csv] ] ].
Qed.

(** X14. main only ever appends to results.csv: whether it returns or
    raises, the lines the file had when main started are still its first
    lines, in the same order. *)
Theorem main_only_appends n_repeats scenario_params_list w :
  exists lines,
    results_csv (snd (main n_repeats scenario_params_list w))
    = results_csv w ++ lines.
Proof.
  pose proof (main_appended n_repeats scenario_params_list w) as Hprefix.
  unfold csv_appended in Hprefix. destruct Hprefix as [lines Hlines].
  by exists lines.
Qed.

(** X15. Started on an empty results.csv, a main that returns after at
    least one iteration has written the header exactly once and has left
    the file non-empty. *)
Theorem fresh_file_gets_one_header n_repeats scenario_params_list z w' :
  main n_repeats scenario_params_list (initial_world []) = (inr z, w') ->
  (0 < n_repeats * length scenario_params_list)%nat ->
  headers_written w' = 1%nat /\ results_csv w' <> [].
Proof.
  intros Hrun Hjobs.
  assert (Hflags : csv_headers w' <> []).
  { unfold main in Hrun.
    apply bind_inr in Hrun as (u & w1 & Hloop & Hret).
    injection Hret as _ <-.
    apply main_loop_count in Hloop. rewrite length_main_jobs in Hloop.
    intros Hnil. rewrite Hnil in Hloop. simpl in Hloop. lia. }
  pose proof (main_nonempty n_repeats scenario_params_list (initial_world []))
    as Hkept.
  pose proof (main_budget n_repeats scenario_params_list (initial_world []))
    as Hbudget.
  rewrite Hrun in Hkept, Hbudget. simpl in Hkept, Hbudget.
  destruct Hkept as [Hnil|Hfile]; [by left|done|].
  split; [|exact Hfile].
  unfold budget_kept, header_budget in Hbudget.
  rewrite decide_False in Hbudget by exact Hfile.
  change (headers_written (initial_world [])) with 0%nat in Hbudget.
  simpl in Hbudget. lia.
Qed.

End Run.

(** *** Configuration *)

Section Configuration.
Context {Node Data Params : Type} {ext : Externals Node Data Params}
  {cfg_ext : ConfigExternals Params}.

Lemma main_without_jobs n_repeats (scenario_params_list : list Params) w :
  (n_repeats * length scenario_params_list = 0)%nat ->
  main n_repeats scenario_params_list w = (inr 0%Z, w).
Proof.
  intros Hnone. unfold main.
  assert (Hjobs : main_jobs n_repeats scenario_params_list = []).
  { apply nil_length_inv. by rewrite length_main_jobs. }
  by rewrite Hjobs.
Qed.

(** X19. If the configuration returned by [init_result_folder] lacks one
    of the keys [experiment_path], [scenario_params_list], [n_repeats],
    main stops with a KeyError naming the first missing key, in that
    order, before any scenario is built: the world is as it was. *)
Theorem missing_config_key_stops_main file loaded cfg w :
  load_cfg (config_filepath file) = inr loaded ->
  init_result_folder (config_filepath file) loaded = inr cfg ->
  (experiment_path cfg = None ->
   main_script file w = (inl (OtherError "KeyError: experiment_path"), w)) /\
  (experiment_path cfg <> None -> scenario_params_list cfg = None ->
   main_script file w =
     (inl (OtherError "KeyError: scenario_params_list"), w)) /\
  (experiment_path cfg <> None -> scenario_params_list cfg <> None ->
   n_repeats cfg = None ->
   main_script file w = (inl (OtherError "KeyError: n_repeats"), w)).
Proof.
  intros Hload Hinit. unfold main_script.
  rewrite (bind_lift_inr _ _ _ _ Hload), (bind_lift_inr _ _ _ _ Hinit).
  destruct (experiment_path cfg) as [path|];
    destruct (scenario_params_list cfg) as [ps|];
    destruct (n_repeats cfg) as [n|];
    repeat split; intros; done.
Qed.

(** X20. With a complete configuration in which [n_repeats] is zero or
    negative, or the scenario list is empty, main returns 0 at once: no
    scenario is built, no estimator called, results.csv not touched. *)
Theorem nothing_to_run_returns_zero file loaded cfg path ps n w :
  load_cfg (config_filepath file) = inr loaded ->
  init_result_folder (config_filepath file) loaded = inr cfg ->
  experiment_path cfg = Some path ->
  scenario_params_list cfg = Some ps ->
  n_repeats cfg = Some n ->
  (n <= 0)%Z \/ ps = [] ->
  main_script file w = (inr 0%Z, w).
Proof.
  intros Hload Hinit Hpath Hps Hn Hnone. unfold main_script.
  rewrite (bind_lift_inr _ _ _ _ Hload), (bind_lift_inr _ _ _ _ Hinit).
  rewrite Hpath, Hps, Hn. simpl.
  unfold bind at 1, lift at 1. unfold bind at 1, lift at 1.
  unfold bind at 1, lift at 1.
  apply main_without_jobs.
  destruct Hnone as [Hneg| ->]; [|simpl; lia].
  replace (Z.to_nat n) with 0%nat by lia. done.
Qed.

End Configuration.

(** *** The theorems on the stubs *)

Section Witnesses.
Import Stub StubConfig StubRuns.

Lemma run_scenario_reads_clock_twice_per_method_witness :
  ticks (snd run3) = (0 + 2 * length (methods final3))%nat.
Proof.
  apply (run_scenario_reads_clock_twice_per_method (ext := ok)
           scenario3 (initial_world []) final3 (snd run3)).
  vm_compute; reflexivity.
Defined.

Lemma run_scenario_calls_follow_methods_witness :
  calls (snd run3) = [] ++ (methods final3 ≫= call_of_method).
Proof.
  apply (run_scenario_calls_follow_methods (ext := ok)
           scenario3 (initial_world []) final3 (snd run3)).
  vm_compute; reflexivity.
Defined.

Lemma unknown_first_method_is_unbound_witness :
  fst (run_scenario (ext := ok) (stub_scenario ["bogus"; "Shapley values"])
         (initial_world []))
  = inl (UnboundLocalError "score_dict").
Proof.
  rewrite (unknown_first_method_is_unbound (ext := ok)
             (stub_scenario ["bogus"; "Shapley values"]) (initial_world [])
             (set_federated_test_score
                (stub_scenario ["bogus"; "Shapley values"]) 30)
             "bogus" ["Shapley values"]).
  - reflexivity.
  - vm_compute; reflexivity.
  - reflexivity.
  - unfold recognized. intros [H|[H|H]]; discriminate.
Defined.

Lemma unknown_method_repeats_last_records_witness :
  map name (contributivity_list (fst bogus_state)) = ["Shapley values"] /\
  calls (snd bogus_run) = [].
Proof.
  destruct (unknown_method_repeats_last_records (ext := ok) "bogus" prepared3
              shapley_dict (initial_world []) bogus_state (snd bogus_run))
    as [Hstate Hcalls].
  - unfold recognized. intros [H|[H|H]]; discriminate.
  - vm_compute; reflexivity.
  - split; [by rewrite Hstate|exact Hcalls].
Defined.

Lemma preparation_failure_precedes_methods_witness :
  run_scenario (ext := stub_externals train_fail) scenario3 (initial_world [])
  = (inl (TrainingFailure [2; 1; 0]%nat), initial_world []).
Proof.
  apply (preparation_failure_precedes_methods
           (ext := stub_externals train_fail) scenario3 (initial_world [])
           (TrainingFailure [2; 1; 0]%nat) (initial_world [])).
  vm_compute; reflexivity.
Defined.

Lemma elapsed_time_is_nonnegative_witness :
  exists new,
    contributivity_list (fst (method_state "Shapley values")) = [] ++ new /\
    Forall (fun c => 0 <= computation_time c) new.
Proof.
  destruct (elapsed_time_is_nonnegative (ext := ok) "Shapley values"
              (prepared3, None) (initial_world [])
              (method_state "Shapley values")
              (snd (method_run "Shapley values")))
    as (new & Hlist & Hpos & _).
  - vm_compute; reflexivity.
  - vm_compute; discriminate.
  - by exists new.
Defined.

Lemma shapley_record_holds_estimator_output_witness :
  exists scores,
    Forall2 Qeq scores [10; 10; 10] /\
    map contributivity_scores
      (contributivity_list (fst (method_state "Shapley values")))
    = [scores].
Proof.
  destruct (shapley_record_holds_estimator_output (ext := ok)
              (prepared3, None) (initial_world [])
              (method_state "Shapley values")
              (snd (method_run "Shapley values")))
    as (scores & var & Hsv & Hlist).
  - vm_compute; reflexivity.
  - exists scores. split; [|by rewrite Hlist].
    vm_compute in Hsv. injection Hsv as <- _. repeat constructor.
Defined.

Lemma independent_records_hold_estimator_output_witness :
  exists raw additive,
    map contributivity_scores
      (contributivity_list (fst (method_state "Independant scores")))
    = [raw; additive] /\
    Forall2 Qeq additive [10; 10; 10].
Proof.
  destruct (independent_records_hold_estimator_output (ext := ok)
              (prepared3, None) (initial_world [])
              (method_state "Independant scores")
              (snd (method_run "Independant scores")))
    as (raw & additive & Hscores & Hlist).
  - vm_compute; reflexivity.
  - exists raw, additive. split; [by rewrite Hlist|].
    vm_compute in Hscores. injection Hscores as _ <-. repeat constructor.
Defined.

Lemma tmcs_record_holds_sv_and_std_sv_witness :
  exists tmcs,
    map scores_var (contributivity_list (fst (method_state "TMCS values")))
    = [tmcs_std_sv tmcs].
Proof.
  destruct (tmcs_record_holds_sv_and_std_sv (ext := ok)
              (prepared3, None) (initial_world [])
              (method_state "TMCS values") (snd (method_run "TMCS values")))
    as (tmcs & _ & Hlist).
  - vm_compute; reflexivity.
  - exists tmcs. by rewrite Hlist.
Defined.

Lemma main_iteration_appends_dataframe_witness :
  results_csv (snd first_iteration)
  = ["contributivity_method,random_state,scenario_id";
     "Independant scores raw,0,0"; "Independant scores additive,0,0"].
Proof.
  destruct (main_iteration_appends_dataframe (ext := ok) 0 0
              (experiment !!! 0%nat) (initial_world []) tt
              (snd first_iteration))
    as (s & s' & df & Hs & Hrun & Hdf & Hfile).
  - vm_compute; reflexivity.
  - vm_compute; reflexivity.
Defined.

(** When preprocessing returns a copy, the records are appended to the
    copy: the object main reads has none, and only the header reaches
    results.csv although the estimator has run. *)
Example copy_leaves_results_out :
  main_iteration (ext := copying) (0, (0, experiment !!! 0))%nat tt
    (initial_world [])
  = (inr tt,
     {| ticks := 2; calls := [Call_compute_independent_scores];
        results_csv := ["contributivity_method,random_state,scenario_id"];
        csv_headers := [true] |}).
Proof. vm_compute. reflexivity. Qed.

Lemma main_returns_zero_after_all_runs_witness :
  fst experiment_run = inr 0%Z /\
  length (csv_headers (snd experiment_run)) = 4%nat.
Proof.
  destruct (main_returns_zero_after_all_runs (ext := ok) 2 experiment
              (initial_world []) 0%Z (snd experiment_run)) as [_ Hcount].
  - vm_compute; reflexivity.
  - split; [vm_compute; reflexivity|exact Hcount].
Defined.

Lemma fresh_file_gets_one_header_witness :
  headers_written (snd experiment_run) = 1%nat.
Proof.
  apply (fresh_file_gets_one_header (ext := ok) 2 experiment 0%Z
           (snd experiment_run)).
  - vm_compute; reflexivity.
  - simpl. lia.
Defined.

Lemma missing_config_key_stops_main_witness :
  main_script (ext := ok) (cfg_ext := stub_config) (Some "no_repeats.yml")
    (initial_world [])
  = (inl (OtherError "KeyError: n_repeats"), initial_world []).
Proof.
  destruct (missing_config_key_stops_main (ext := ok) (cfg_ext := stub_config)
              (Some "no_repeats.yml")
              {| experiment_path := None;
                 scenario_params_list := Some experiment;
                 n_repeats := None |}
              {| experiment_path := Some "experiments/run";
                 scenario_params_list := Some experiment;
                 n_repeats := None |}
              (initial_world []))
    as (_ & _ & Hkey); [reflexivity|reflexivity|].
  apply Hkey; done.
Defined.

Lemma nothing_to_run_returns_zero_witness :
  main_script (ext := ok) (cfg_ext := stub_config) (Some "dry_run.yml")
    (initial_world [])
  = (inr 0%Z, initial_world []).
Proof.
  apply (nothing_to_run_returns_zero (ext := ok) (cfg_ext := stub_config)
           (Some "dry_run.yml")
           {| experiment_path := None;
              scenario_params_list := Some experiment;
              n_repeats := Some (-1)%Z |}
           {| experiment_path := Some "experiments/run";
              scenario_params_list := Some experiment;
              n_repeats := Some (-1)%Z |}
           "experiments/run" experiment (-1)%Z);
    try reflexivity.
  left. lia.
Defined.

End Witnesses.

End ScriptFacts.
